(** * blasjs: the CHBMV and STRMM reference kernels

    A shallow embedding of [src/lib/l2/complex/chbmv.ts] and
    [src/lib/l3/single/strmm.ts].

    - A JavaScript [number] holding a dimension, a stride or an index is
      a [Z]; one holding a matrix or vector element is an IEEE binary64
      value, Rocq's primitive [float] ([===] on numbers is [PrimFloat.eqb],
      so [NaN] differs from itself and [-0] equals [0]).
    - A typed array is a [list float].  Reading outside of it yields
      [undefined], which every use in the two kernels (arithmetic, and
      [!== 0]) treats as [NaN]; storing outside of it does nothing.
    - An option string is a [string] of code units below 256; a code
      unit from 256 on differs from every option letter, before and
      after [| 0x20].
    - The kernels mutate [y] (resp. [B]) in place: each one is a function
      from the buffers before the call to the way the call completes
      together with the buffers after it.  The input operands ([A], [x])
      are taken not to share storage with the output operand. *)

From Stdlib Require Import ZArith Lia Bool String Ascii.
From Stdlib Require Import Floats.
From stdpp Require Import base list.

Local Open Scope string_scope.
Local Open Scope Z_scope.

(** ** Typed arrays *)

Abbreviation fpArray := (list float).

(** [a[idx]] as an rvalue. *)
Definition get (a : fpArray) (idx : Z) : float :=
  if idx <? 0 then nan else default nan (a !! Z.to_nat idx).

(** ** Loops

    [for (let i = lo; i <= hi; i++)] and [for (let i = hi; i >= lo; i--)]
    with bounds that the body does not change. *)

Fixpoint for_from {S : Type} (cnt : nat) (step : Z) (i : Z)
    (body : Z -> S -> S) (s : S) : S :=
  match cnt with
  | O => s
  | Datatypes.S c => for_from c step (i + step) body (body i s)
  end.

Definition for_up {S : Type} (lo hi : Z) (body : Z -> S -> S) (s : S) : S :=
  for_from (Z.to_nat (hi - lo + 1)) 1 lo body s.

Definition for_down {S : Type} (hi lo : Z) (body : Z -> S -> S) (s : S) : S :=
  for_from (Z.to_nat (hi - lo + 1)) (-1) hi body s.

(** ** Strings *)

(** [s.includes(sub)]: [sub] occurs in [s] as a substring. *)
Fixpoint includes (s sub : string) : bool :=
  String.prefix sub s ||
  match s with
  | EmptyString => false
  | String _ s' => includes s' sub
  end.

(** [String.fromCharCode(s.charCodeAt(0) | 0x20)].  The code of a missing
    first character is [NaN], which [|] reads as 0. *)
Definition charCodeAt0 (s : string) : Z :=
  match s with
  | EmptyString => 0
  | String c _ => Z.of_N (N_of_ascii c)
  end.

Definition fromCharCode (c : Z) : string :=
  String (ascii_of_N (Z.to_N c)) EmptyString.

Definition lower0x20 (s : string) : string :=
  fromCharCode (Z.lor (charCodeAt0 s) 32).

(** ** Operands *)

Record Complex := mkComplex { re : float; im : float }.

(** A matrix object: the real and (optional) imaginary backing buffers
    (its fields [r] and [i]) and its own column accessor; element [(i, j)]
    lives at [colOfEx j + i]. *)
Record Matrix := mkMatrix {
  mr : fpArray;
  mi : option fpArray;
  colOfEx : Z -> Z
}.

(** A vector object: its buffers (fields [r] and [i]) and the base index
    of its first element. *)
Record FortranArr := mkFortranArr {
  base : Z;
  vr : fpArray;
  vi : option fpArray
}.

(** ** Errors *)

Inductive Error :=
| errMissingIm (name : string)
| errWrongArg (routine : string) (info : Z).

Inductive completion :=
| Normal
| Throw (e : Error).

Section Kernels.

(** What [f_func] supplies and [src/] does not hold:
    - [fround], the conversion a store into the output's typed array
      applies (the identity for a [Float64Array], rounding to binary32
      for a [Float32Array]);
    - [lowerChar], the normalisation of an option string;
    - [setCol], the matrix method [b.setCol(col, rowStart, rowEnd, v)]. *)
Variable fround : float -> float.
Variable lowerChar : string -> string.
Variable setCol : Matrix -> Z -> Z -> Z -> float -> Matrix.

(** [a[idx] = v]. *)
Definition set (a : fpArray) (idx : Z) (v : float) : fpArray :=
  if idx <? 0 then a else <[Z.to_nat idx := fround v]> a.

(** [a.fill(v)]. *)
Definition fill (a : fpArray) (v : float) : fpArray :=
  (fun _ => fround v) <$> a.

(** ** strmm *)

Definition strmm_info (si ul tr di : string) (m n nrowA lda ldb : Z) : Z :=
  if negb (includes "lr" si) then 1
  else if negb (includes "ul" ul) then 2
  else if negb (includes "ntc" tr) then 3
  else if negb (includes "un" di) then 4
  else if m <? 0 then 5
  else if n <? 0 then 6
  else if lda <? Z.max 1 nrowA then 9
  else if ldb <? Z.max 1 m then 11
  else 0.

(** The eight loop nests; each maps the real buffer of [B] before to the
    one after.  [ar] is [a.r], [ca] is [a.colOfEx], [cb] is [b.colOfEx]. *)
Section Branches.
Variables (nounit : bool) (m n : Z) (alpha : float).
Variables (ar : fpArray) (ca cb : Z -> Z).

(* B := alpha*A*B, A upper *)
Definition left_n_upper (br : fpArray) : fpArray :=
  for_up 1 n (fun j br =>
    let coorBJ := cb j in
    for_up 1 m (fun k br =>
      let coorAK := ca k in
      if negb (get br (coorBJ + k) =? 0)%float then
        let temp := (alpha * get br (coorBJ + k))%float in
        let br := for_up 1 (k - 1) (fun i br =>
          set br (coorBJ + i)
            (get br (coorBJ + i) + temp * get ar (coorAK + i))%float) br in
        let temp := if nounit then (temp * get ar (coorAK + k))%float else temp in
        set br (coorBJ + k) temp
      else br) br) br.

(* B := alpha*A*B, A lower *)
Definition left_n_lower (br : fpArray) : fpArray :=
  for_up 1 n (fun j br =>
    let coorBJ := cb j in
    for_down m 1 (fun k br =>
      let coorAK := ca k in
      if negb (get br (coorBJ + k) =? 0)%float then
        let temp := (alpha * get br (coorBJ + k))%float in
        let br := set br (coorBJ + k) temp in
        let br := if nounit
          then set br (coorBJ + k) (get br (coorBJ + k) * get ar (coorAK + k))%float
          else br in
        for_up (k + 1) m (fun i br =>
          set br (coorBJ + i)
            (get br (coorBJ + i) + temp * get ar (coorAK + i))%float) br
      else br) br) br.

(* B := alpha*A**T*B, A upper *)
Definition left_t_upper (br : fpArray) : fpArray :=
  for_up 1 n (fun j br =>
    let coorBJ := cb j in
    for_down m 1 (fun i br =>
      let temp := get br (coorBJ + i) in
      let coorAI := ca i in
      let temp := if nounit then (temp * get ar (coorAI + i))%float else temp in
      let temp := for_up 1 (i - 1) (fun k temp =>
        (temp + get ar (coorAI + k) * get br (coorBJ + k))%float) temp in
      set br (coorBJ + i) (alpha * temp)%float) br) br.

(* B := alpha*A**T*B, A lower *)
Definition left_t_lower (br : fpArray) : fpArray :=
  for_up 1 n (fun j br =>
    let coorBJ := cb j in
    for_up 1 m (fun i br =>
      let coorAI := ca i in
      let temp := get br (coorBJ + i) in
      let temp := if nounit then (temp * get ar (coorAI + i))%float else temp in
      let temp := for_up (i + 1) m (fun k temp =>
        (temp + get ar (coorAI + k) * get br (coorBJ + k))%float) temp in
      set br (coorBJ + i) (alpha * temp)%float) br) br.

(** [for i in 1..m: b.r[coorBJ + i] *= temp] *)
Definition scale_col (coorBJ : Z) (temp : float) (br : fpArray) : fpArray :=
  for_up 1 m (fun i br =>
    set br (coorBJ + i) (get br (coorBJ + i) * temp)%float) br.

(** [for i in 1..m: b.r[coorBJ + i] += temp * b.r[coorBK + i]] *)
Definition axpy_col (coorBJ coorBK : Z) (temp : float) (br : fpArray) : fpArray :=
  for_up 1 m (fun i br =>
    set br (coorBJ + i)
      (get br (coorBJ + i) + temp * get br (coorBK + i))%float) br.

(* B := alpha*B*A, A upper *)
Definition right_n_upper (br : fpArray) : fpArray :=
  for_down n 1 (fun j br =>
    let temp := alpha in
    let coorAJ := ca j in
    let coorBJ := cb j in
    let temp := if nounit then (temp * get ar (coorAJ + j))%float else temp in
    let br := scale_col coorBJ temp br in
    for_up 1 (j - 1) (fun k br =>
      let coorBK := cb k in
      if negb (get ar (coorAJ + k) =? 0)%float then
        let temp := (alpha * get ar (coorAJ + k))%float in
        axpy_col coorBJ coorBK temp br
      else br) br) br.

(* B := alpha*B*A, A lower *)
Definition right_n_lower (br : fpArray) : fpArray :=
  for_up 1 n (fun j br =>
    let coorAJ := ca j in
    let coorBJ := cb j in
    let temp := alpha in
    let temp := if nounit then (temp * get ar (coorAJ + j))%float else temp in
    let br := scale_col coorBJ temp br in
    for_up (j + 1) n (fun k br =>
      let coorBK := cb k in
      if negb (get ar (coorAJ + k) =? 0)%float then
        let temp := (alpha * get ar (coorAJ + k))%float in
        axpy_col coorBJ coorBK temp br
      else br) br) br.

(** [for i in 1..m: b.r[coorBK + i] = temp * b.r[coorBK + i]] *)
Definition scale_col_l (coorBK : Z) (temp : float) (br : fpArray) : fpArray :=
  for_up 1 m (fun i br =>
    set br (coorBK + i) (temp * get br (coorBK + i))%float) br.

(* B := alpha*B*A**T, A upper *)
Definition right_t_upper (br : fpArray) : fpArray :=
  for_up 1 n (fun k br =>
    let coorAK := ca k in
    let coorBK := cb k in
    let br := for_up 1 (k - 1) (fun j br =>
      let coorBJ := cb j in
      if negb (get ar (coorAK + j) =? 0)%float then
        let temp := (alpha * get ar (coorAK + j))%float in
        axpy_col coorBJ coorBK temp br
      else br) br in
    let temp := alpha in
    let temp := if nounit then (temp * get ar (coorAK + k))%float else temp in
    if negb (temp =? 1)%float then scale_col_l coorBK temp br else br) br.

(* B := alpha*B*A**T, A lower *)
Definition right_t_lower (br : fpArray) : fpArray :=
  for_down n 1 (fun k br =>
    let coorAK := ca k in
    let coorBK := cb k in
    let br := for_up (k + 1) n (fun j br =>
      let coorBJ := cb j in
      if negb (get ar (coorAK + j) =? 0)%float then
        let temp := (alpha * get ar (coorAK + j))%float in
        axpy_col coorBJ coorBK temp br
      else br) br in
    let temp := alpha in
    let temp := if nounit then (temp * get ar (coorAK + k))%float else temp in
    if negb (temp =? 1)%float then scale_col coorBK temp br else br) br.

End Branches.

Definition with_mr (b : Matrix) (br : fpArray) : Matrix :=
  mkMatrix br (mi b) (colOfEx b).

Definition strmm (side uplo transA diag : string) (m n : Z) (alpha : float)
    (a : Matrix) (lda : Z) (b : Matrix) (ldb : Z) : completion * Matrix :=
  let si := lowerChar side in
  let ul := lowerChar uplo in
  let tr := lowerChar transA in
  let di := lowerChar diag in
  let lside := String.eqb si "l" in
  let nrowA := if lside then m else n in
  let nounit := String.eqb di "n" in
  let upper := String.eqb ul "u" in
  let info := strmm_info si ul tr di m n nrowA lda ldb in
  if negb (info =? 0) then (Throw (errWrongArg "strmm" info), b)
  else if (m =? 0) || (n =? 0) then (Normal, b)
  else if (alpha =? 0)%float then
    (Normal, for_up 1 n (fun j b => setCol b j 1 m 0%float) b)
  else
    let run kernel :=
      (Normal, with_mr b (kernel nounit m n alpha (mr a) (colOfEx a) (colOfEx b) (mr b))) in
    if lside then
      if String.eqb tr "n" then
        if upper then run left_n_upper else run left_n_lower
      else
        if upper then run left_t_upper else run left_t_lower
    else
      if String.eqb tr "n" then
        if upper then run right_n_upper else run right_n_lower
      else
        if upper then run right_t_upper else run right_t_lower.


(** ** chbmv *)

Definition chbmv_info (ul : string) (n k lda incx incy : Z) : Z :=
  if negb (String.eqb ul "u") && negb (String.eqb ul "l") then 1
  else if n <? 0 then 2
  else if k <? 0 then 3
  else if lda <? k + 1 then 6
  else if incx =? 0 then 8
  else if incy =? 0 then 11
  else 0.

(** The buffers of [y] together with the locals a loop carries. *)
Record scale_st := mkScale { s_yr : fpArray; s_yi : fpArray; s_iy : Z }.

Record inner_st := mkInner {
  i_yr : fpArray; i_yi : fpArray;
  temp2Re : float; temp2Im : float;
  i_ix : Z; i_iy : Z
}.

Record outer_st := mkOuter {
  o_yr : fpArray; o_yi : fpArray;
  o_jx : Z; o_jy : Z; o_kx : Z; o_ky : Z
}.

Section Chbmv_body.
Variables (n k : Z) (AlphaRe AlphaIm BetaRe BetaIm : float).
Variables (ar ai : fpArray) (ca : Z -> Z).
Variables (xr xi : fpArray) (xbase ybase incx incy : Z).

Definition alphaIsZero : bool := (AlphaRe =? 0)%float && (AlphaIm =? 0)%float.
Definition betaIsOne : bool := (BetaRe =? 1)%float && (BetaIm =? 0)%float.
Definition betaIsZero : bool := (BetaRe =? 0)%float && (BetaIm =? 0)%float.

(** Lines 96-100: the strided pass over [y], from [iy = ky]. *)
Definition scale_loop (ky : Z) (yr yi : fpArray) : fpArray * fpArray :=
  let s := for_up 1 n (fun i s =>
    let iy := s_iy s in
    let yr := set (s_yr s) iy
      (if betaIsZero then 0 else BetaRe * get (s_yr s) iy - BetaIm * get (s_yi s) iy)%float in
    let yi := set (s_yi s) iy
      (if betaIsZero then 0 else BetaRe * get (s_yi s) iy + BetaIm * get yr iy)%float in
    mkScale yr yi (iy + incy)) (mkScale yr yi ky) in
  (s_yr s, s_yi s).

(** Lines 89-102. *)
Definition beta_pass (ky : Z) (yr yi : fpArray) : fpArray * fpArray :=
  if betaIsOne then
    if betaIsZero && (incy =? 1) then (fill yr 0%float, fill yi 0%float)
    else scale_loop ky yr yi
  else (yr, yi).

(** Lines 163-168 (and 123-129): one step inside a column; [aidx] is
    [coords + L + i]. *)
Definition inner_step (temp1Re temp1Im : float) (aidx : Z) (s : inner_st) : inner_st :=
  let iy := i_iy s in
  let ix := i_ix s in
  let yr := set (i_yr s) iy
    (get (i_yr s) iy + (temp1Re * get ar aidx - temp1Im * get ai aidx))%float in
  let yi := set (i_yi s) iy
    (get (i_yi s) iy + (temp1Re * get ai aidx + temp1Im * get ar aidx))%float in
  let t2re := (temp2Re s + (get ar aidx * get xr ix + get ai aidx * get xi ix))%float in
  let t2im := (temp2Im s + (get ar aidx * get xi ix - get ai aidx * get xr ix))%float in
  mkInner yr yi t2re t2im ix iy.

(** Lines 110-140. *)
Definition upper_col (j : Z) (o : outer_st) : outer_st :=
  let kplus1 := k + 1 in
  let jx := o_jx o in
  let temp1Re := (AlphaRe * get xr jx - AlphaIm * get xi jx)%float in
  let temp1Im := (AlphaRe * get xi jx + AlphaIm * get xr jx)%float in
  let ix := o_kx o - xbase in
  let iy := o_ky o - ybase in
  let L := kplus1 - j in
  let coords := ca j in
  let s := for_up (Z.max 1 (j - k)) (j - 1) (fun i s =>
    let s := inner_step temp1Re temp1Im (coords + L + i) s in
    mkInner (i_yr s) (i_yi s) (temp2Re s) (temp2Im s) (i_ix s + incx) (i_iy s + incy))
    (mkInner (o_yr o) (o_yi o) 0%float 0%float ix iy) in
  let iy := i_iy s in
  let yr := set (i_yr s) iy
    (get (i_yr s) iy + (temp1Re * get ar (coords + kplus1)
       + (AlphaRe * temp2Re s - AlphaIm * temp2Im s)))%float in
  let yi := set (i_yi s) iy
    (get (i_yi s) iy + (temp1Im * get ar (coords + kplus1)
       + (AlphaRe * temp2Im s + AlphaIm * temp2Re s)))%float in
  let jx := jx + incx in
  let jy := o_jy o + incy in
  if j >? k then mkOuter yr yi jx jy (o_kx o + incx) (o_ky o + incy)
  else mkOuter yr yi jx jy (o_kx o) (o_ky o).

(** Lines 144-175. *)
Definition lower_col (j : Z) (o : outer_st) : outer_st :=
  let jx := o_jx o in
  let jy := o_jy o in
  let temp1Re := (AlphaRe * get xr jx - AlphaIm * get xi jx)%float in
  let temp1Im := (AlphaRe * get xi jx + AlphaIm * get xr jx)%float in
  let coords := ca j in
  let yr := set (o_yr o) jy (get (o_yr o) jy + temp1Re * get ar (coords + 1))%float in
  let yi := set (o_yi o) jy (get (o_yi o) jy + temp1Im * get ar (coords + 1))%float in
  let L := 1 - j in
  let s := for_up (j + 1) (Z.min n (j + k)) (fun i s =>
    let s := mkInner (i_yr s) (i_yi s) (temp2Re s) (temp2Im s) (i_ix s + incx) (i_iy s + incy) in
    inner_step temp1Re temp1Im (coords + L + i) s)
    (mkInner yr yi 0%float 0%float jx jy) in
  let yr := set (i_yr s) jy
    (get (i_yr s) jy + (AlphaRe * temp2Re s - AlphaIm * temp2Im s))%float in
  let yi := set (i_yi s) jy
    (get (i_yi s) jy + (AlphaRe * temp2Im s + AlphaIm * temp2Re s))%float in
  mkOuter yr yi (jx + incx) (jy + incy) (o_kx o) (o_ky o).

(** Lines 84-177, once validation has passed: the buffers of [y] after
    the call. *)
Definition chbmv_run (ul : string) (yr yi : fpArray) : fpArray * fpArray :=
  if (n =? 0) || (alphaIsZero && betaIsOne) then (yr, yi)
  else
    let kx := if incx >? 0 then 1 else 1 - (n - 1) * incx in
    let ky := if incy >? 0 then 1 else 1 - (n - 1) * incy in
    let '(yr, yi) := beta_pass ky yr yi in
    if alphaIsZero then (yr, yi)
    else
      let jx := kx - xbase in
      let jy := ky - ybase in
      let o := for_up 1 n (if String.eqb ul "u" then upper_col else lower_col)
                 (mkOuter yr yi jx jy kx ky) in
      (o_yr o, o_yi o).

End Chbmv_body.

Definition chbmv (_uplo : string) (n k : Z) (alpha : Complex) (a : Matrix)
    (lda : Z) (x : FortranArr) (incx : Z) (beta : Complex) (y : FortranArr)
    (incy : Z) : completion * FortranArr :=
  match mi a with
  | None => (Throw (errMissingIm "a.i"), y)
  | Some ai =>
  match vi x with
  | None => (Throw (errMissingIm "x.i"), y)
  | Some xi =>
  match vi y with
  | None => (Throw (errMissingIm "y.i"), y)
  | Some yi =>
    let ul := lower0x20 _uplo in
    let info := chbmv_info ul n k lda incx incy in
    if negb (info =? 0) then (Throw (errWrongArg "chbmv" info), y)
    else
      let '(yr', yi') :=
        chbmv_run n k (re alpha) (im alpha) (re beta) (im beta)
          (mr a) ai (colOfEx a) (vr x) xi (base x) (base y) incx incy
          ul (vr y) yi in
      (Normal, mkFortranArr (base y) yr' (Some yi'))
  end end end.

End Kernels.

(** ** Logical views and sample operands *)

(** Element [(i, j)] of a matrix, as the kernels address it. *)
Definition entry (a : Matrix) (i j : Z) : float :=
  get (mr a) (colOfEx a j + i).

(** Two matrices of order [nrowA] that agree off the diagonal. *)
Definition offdiag_eq (nrowA : Z) (a1 a2 : Matrix) : Prop :=
  forall i j, 1 <= i <= nrowA -> 1 <= j <= nrowA -> i <> j ->
    entry a1 i j = entry a2 i j.

(** The raw indices of the [n] logical elements of a vector of base
    [vbase] walked with stride [inc]: the loops of [chbmv] start at
    [k0 - vbase] with [k0 = 1] for a positive stride and
    [1 - (n - 1) * inc] otherwise. *)
Definition start_index (n inc : Z) : Z :=
  if inc >? 0 then 1 else 1 - (n - 1) * inc.

Definition position (n inc vbase : Z) (t : Z) : Z :=
  start_index n inc - vbase + t * inc.

Definition strided (n inc vbase : Z) (p : Z) : Prop :=
  exists t, 0 <= t < n /\ p = position n inc vbase t.

(** The buffers [yr], [yi] hold what [yr0], [yi0] held everywhere but at
    the strided positions. *)
Definition same_off_stride (n inc vbase : Z) (yr0 yi0 yr yi : fpArray) : Prop :=
  forall p, ~ strided n inc vbase p ->
    get yr p = get yr0 p /\ get yi p = get yi0 p.

(** The imaginary buffer of a vector (empty when it has none). *)
Definition vimag (v : FortranArr) : fpArray := default [] (vi v).

(** A store into a [Float64Array] keeps the value. *)
Definition store64 (v : float) : float := v.

(** Modelled from the spec: [setCol] of [f_func] is not under [src/]; the
    spec has the [alpha == 0] exit "set every element of B to zero", so
    [b.setCol(col, rowStart, rowEnd, v)] stores [v] in rows
    [rowStart..rowEnd] of column [col]. *)
Definition setCol_rows (fround : float -> float) (b : Matrix)
    (col rowStart rowEnd : Z) (v : float) : Matrix :=
  with_mr b (for_up rowStart rowEnd
    (fun i br => set fround br (colOfEx b col + i) v) (mr b)).

(** Column-major buffers whose element [(i, j)] is at
    [(j - 1) * ld + (i - 1)]. *)
Definition colMajor (ld : Z) (j : Z) : Z := (j - 1) * ld - 1.

Definition realMatrix (ld : Z) (elems : list float) : Matrix :=
  mkMatrix elems None (colMajor ld).

Definition complexMatrix (ld : Z) (res ims : list float) : Matrix :=
  mkMatrix res (Some ims) (colMajor ld).

Definition complexVector (vbase : Z) (res ims : list float) : FortranArr :=
  mkFortranArr vbase res (Some ims).

(** Operands of the worked examples: the upper-triangular [A] of order 2
    with [A(1,1) = 3], [A(1,2) = 5], [A(2,2) = 7], [B = [1; 1]], and
    [exA'], which is [exA] with another diagonal; the 1 x 1 Hermitian band matrix [[2]] with [x = [1]] and [y = [5]], and a
    [y] whose buffers hold a second element. *)
Definition exA : Matrix := realMatrix 2 [3; 0; 5; 7]%float.
Definition exB : Matrix := realMatrix 2 [1; 1]%float.
Definition exA' : Matrix := realMatrix 2 [9; 0; 5; 8]%float.
Definition exH : Matrix := complexMatrix 1 [2]%float [0]%float.
Definition exX : FortranArr := complexVector 1 [1]%float [0]%float.
Definition exY : FortranArr := complexVector 1 [5]%float [0]%float.
Definition exY2 : FortranArr :=
  complexVector 1 [5; infinity]%float [0; 1]%float.

(** ** Views used by the further properties *)

(** An uplo string whose first character is one of [u U l L]. *)
Definition uplo_letter (s : string) : Prop :=
  exists c rest, s = String c rest /\
    (c = "u" \/ c = "U" \/ c = "l" \/ c = "L")%char.

(** Two band matrices that agree where [chbmv] reads: in columns [1..n],
    the real parts of rows [1..k+1] and the imaginary parts of the rows
    off the diagonal (rows [1..k] of the upper layout, rows [2..k+1] of
    the lower one). *)
Definition band_eq (upper : bool) (n k : Z) (a1 a2 : Matrix)
    (ai1 ai2 : fpArray) : Prop :=
  forall j r, 1 <= j <= n -> 1 <= r <= k + 1 ->
    get (mr a1) (colOfEx a1 j + r) = get (mr a2) (colOfEx a2 j + r) /\
    ((if upper then r <= k else 2 <= r) ->
     get ai1 (colOfEx a1 j + r) = get ai2 (colOfEx a2 j + r)).

(** Two matrices of order [nrowA] that agree on the upper (resp. lower)
    triangle, diagonal included. *)
Definition triangle_eq (upper : bool) (nrowA : Z) (a1 a2 : Matrix) : Prop :=
  forall i j, 1 <= i <= nrowA -> 1 <= j <= nrowA ->
    (if upper then i <= j else j <= i) -> entry a1 i j = entry a2 i j.

(** The strict upper (resp. lower) triangle holds zeros. *)
Definition strict_triangle_zero (upper : bool) (nrowA : Z) (a : Matrix) : Prop :=
  forall i j, 1 <= i <= nrowA -> 1 <= j <= nrowA ->
    (if upper then i < j else j < i) -> (entry a i j =? 0)%float = true.

(** The raw indices of the [m] by [n] block of [B]. *)
Definition in_block (cb : Z -> Z) (m n : Z) (p : Z) : Prop :=
  exists i j, 1 <= i <= m /\ 1 <= j <= n /\ p = cb j + i.

(** [br] has the length of [br0] and holds what [br0] held outside the
    block. *)
Definition block_kept (cb : Z -> Z) (m n : Z) (br0 br : fpArray) : Prop :=
  length br = length br0 /\
  forall p, ~ in_block cb m n p -> get br p = get br0 p.

(** Every element of the [m] by [n] block of [B] tests equal to zero. *)
Definition block_zero (m n : Z) (b : Matrix) : Prop :=
  forall i j, 1 <= i <= m -> 1 <= j <= n -> (entry b i j =? 0)%float = true.

(** Further operands: [exA] with another entry below the diagonal, an
    [A] that is zero off the diagonal, a zero [B] with a negative zero, a
    1 by 2 [B], [exH] with another imaginary diagonal and another [x]. *)
Definition exL : Matrix := realMatrix 2 [3; 99; 5; 7]%float.
Definition exD : Matrix := realMatrix 2 [9; 0; 0; 8]%float.
Definition exB0 : Matrix := realMatrix 2 [0; -0]%float.
Definition exBrow : Matrix := realMatrix 1 [4; 6]%float.
Definition exH' : Matrix := complexMatrix 1 [2]%float [5]%float.
Definition exX' : FortranArr := complexVector 1 [3]%float [4]%float.

(** Two vectors that agree at the [n] strided positions. *)
Definition strided_eq (n inc vbase : Z) (r1 i1 r2 i2 : fpArray) : Prop :=
  forall p, strided n inc vbase p ->
    get r1 p = get r2 p /\ get i1 p = get i2 p.

(** [exX] followed by one more element. *)
Definition exXlong : FortranArr := complexVector 1 [1; 77]%float [0; 88]%float.

(** ** Validation *)

Section Strmm_validation.
Variable fround : float -> float.
Variable lowerChar : string -> string.
Variable setCol : Matrix -> Z -> Z -> Z -> float -> Matrix.

Lemma strmm_throws (side uplo transA diag : string) (m n : Z) (alpha : float)
    (a : Matrix) (lda : Z) (b : Matrix) (ldb : Z) (p : Z) :
  strmm_info (lowerChar side) (lowerChar uplo) (lowerChar transA)
    (lowerChar diag) m n
    (if String.eqb (lowerChar side) "l" then m else n) lda ldb = p ->
  p <> 0 ->
  strmm fround lowerChar setCol side uplo transA diag m n alpha a lda b ldb
  = (Throw (errWrongArg "strmm" p), b).
Proof.
  intros Hinfo Hp. unfold strmm. cbv zeta. rewrite Hinfo.
  destruct (Z.eqb_spec p 0) as [E | _]; [contradiction | reflexivity].
Qed.

Lemma strmm_passes (side uplo transA diag : string) (m n : Z) (alpha : float)
    (a : Matrix) (lda : Z) (b : Matrix) (ldb : Z) :
  strmm_info (lowerChar side) (lowerChar uplo) (lowerChar transA)
    (lowerChar diag) m n
    (if String.eqb (lowerChar side) "l" then m else n) lda ldb = 0 ->
  fst (strmm fround lowerChar setCol side uplo transA diag m n alpha a lda b ldb)
  = Normal.
Proof.
  intros Hinfo. unfold strmm. cbv zeta. rewrite Hinfo. simpl.
  repeat match goal with |- context [if ?c then _ else _] => destruct c end;
    reflexivity.
Qed.

Lemma strmm_throw_keeps_b (side uplo transA diag : string) (m n : Z)
    (alpha : float) (a : Matrix) (lda : Z) (b : Matrix) (ldb : Z) (e : Error) :
  fst (strmm fround lowerChar setCol side uplo transA diag m n alpha a lda b ldb)
  = Throw e ->
  snd (strmm fround lowerChar setCol side uplo transA diag m n alpha a lda b ldb)
  = b.
Proof.
  unfold strmm. cbv zeta.
  repeat match goal with |- context [if ?c then _ else _] => destruct c end;
    simpl; intros H; try discriminate H; reflexivity.
Qed.

End Strmm_validation.

(** The checks of [strmm] as the code tests them: a code passes when its
    normalised form occurs in the list of codes (['lr'], ['ul'], ['ntc'],
    ['un']) as a substring; the checks run in the order side (1),
    uplo (2), transA (3), diag (4), [m < 0] (5), [n < 0] (6),
    [lda < max(1, nrowA)] (9), [ldb < max(1, m)] (11); the first that
    fails is the one thrown, a call that throws leaves [B] as it was, and
    a call that passes all of them completes normally. *)
Lemma strmm_checks_in_order (fround : float -> float)
    (lowerChar : string -> string)
    (setCol : Matrix -> Z -> Z -> Z -> float -> Matrix)
    (side uplo transA diag : string) (m n : Z) (alpha : float)
    (a : Matrix) (lda : Z) (b : Matrix) (ldb : Z) :
  let si := lowerChar side in
  let ul := lowerChar uplo in
  let tr := lowerChar transA in
  let di := lowerChar diag in
  let nrowA := if String.eqb si "l" then m else n in
  let res := strmm fround lowerChar setCol side uplo transA diag m n alpha a lda b ldb in
  let thrown p := res = (Throw (errWrongArg "strmm" p), b) in
  let codes_ok := includes "lr" si = true /\ includes "ul" ul = true /\
                  includes "ntc" tr = true /\ includes "un" di = true in
  (includes "lr" si = false -> thrown 1) /\
  (includes "lr" si = true -> includes "ul" ul = false -> thrown 2) /\
  (includes "lr" si = true -> includes "ul" ul = true ->
     includes "ntc" tr = false -> thrown 3) /\
  (includes "lr" si = true -> includes "ul" ul = true ->
     includes "ntc" tr = true -> includes "un" di = false -> thrown 4) /\
  (codes_ok -> m < 0 -> thrown 5) /\
  (codes_ok -> 0 <= m -> n < 0 -> thrown 6) /\
  (codes_ok -> 0 <= m -> 0 <= n -> lda < Z.max 1 nrowA -> thrown 9) /\
  (codes_ok -> 0 <= m -> 0 <= n -> Z.max 1 nrowA <= lda ->
     ldb < Z.max 1 m -> thrown 11) /\
  (codes_ok -> 0 <= m -> 0 <= n -> Z.max 1 nrowA <= lda ->
     Z.max 1 m <= ldb -> fst res = Normal) /\
  (forall e, fst res = Throw e -> snd res = b) /\
  (lowerChar "x" = "x" ->
     strmm fround lowerChar setCol "x" uplo transA diag m n alpha a lda b ldb
     = (Throw (errWrongArg "strmm" 1), b)).
Proof.
  cbv zeta.
  repeat match goal with |- _ /\ _ => split end.
  - intros H1. apply strmm_throws; [|lia]. unfold strmm_info. now rewrite H1.
  - intros H1 H2. apply strmm_throws; [|lia]. unfold strmm_info.
    now rewrite H1, H2.
  - intros H1 H2 H3. apply strmm_throws; [|lia]. unfold strmm_info.
    now rewrite H1, H2, H3.
  - intros H1 H2 H3 H4. apply strmm_throws; [|lia]. unfold strmm_info.
    now rewrite H1, H2, H3, H4.
  - intros (H1 & H2 & H3 & H4) Hm. apply strmm_throws; [|lia].
    unfold strmm_info. rewrite H1, H2, H3, H4. simpl.
    destruct (Z.ltb_spec m 0); [reflexivity | lia].
  - intros (H1 & H2 & H3 & H4) Hm Hn. apply strmm_throws; [|lia].
    unfold strmm_info. rewrite H1, H2, H3, H4. simpl.
    destruct (Z.ltb_spec m 0); [lia|].
    destruct (Z.ltb_spec n 0); [reflexivity | lia].
  - intros (H1 & H2 & H3 & H4) Hm Hn Hlda. apply strmm_throws; [|lia].
    unfold strmm_info. rewrite H1, H2, H3, H4. simpl.
    destruct (Z.ltb_spec m 0); [lia|].
    destruct (Z.ltb_spec n 0); [lia|].
    match goal with |- context [?x <? ?y] => destruct (Z.ltb_spec x y) end;
      [reflexivity | lia].
  - intros (H1 & H2 & H3 & H4) Hm Hn Hlda Hldb. apply strmm_throws; [|lia].
    unfold strmm_info. rewrite H1, H2, H3, H4. simpl.
    destruct (Z.ltb_spec m 0); [lia|].
    destruct (Z.ltb_spec n 0); [lia|].
    match goal with |- context [lda <? ?y] => destruct (Z.ltb_spec lda y) end;
      [lia|].
    destruct (Z.ltb_spec ldb (Z.max 1 m)); [reflexivity | lia].
  - intros (H1 & H2 & H3 & H4) Hm Hn Hlda Hldb. apply strmm_passes.
    unfold strmm_info. rewrite H1, H2, H3, H4. simpl.
    destruct (Z.ltb_spec m 0); [lia|].
    destruct (Z.ltb_spec n 0); [lia|].
    match goal with |- context [lda <? ?y] => destruct (Z.ltb_spec lda y) end;
      [lia|].
    destruct (Z.ltb_spec ldb (Z.max 1 m)); [lia | reflexivity].
  - intros e. apply strmm_throw_keeps_b.
  - intros Hx. apply strmm_throws; [|lia]. unfold strmm_info.
    rewrite Hx. reflexivity.
Qed.

(** C4: the side check at strmm.ts:50 is the substring test
    ['lr'.includes(si)], and the empty string occurs in every string:
    a side that normalises to [''] is never thrown at position 1, though
    it is neither ['l'] nor ['r'].  With a [lowerChar] that keeps [''],
    ['u'] and ['n'], the call
    [strmm('', 'u', 'n', 'n', 2, 1, 2.0, A, 2, B, 2)] on the worked
    operands passes every check, runs as a right-side product and leaves
    [B = [6; 6]]. *)
Theorem strmm_empty_side_not_thrown :
  (forall fround lowerChar setCol side uplo transA diag m n alpha a lda b ldb,
     lowerChar side = "" ->
     fst (strmm fround lowerChar setCol side uplo transA diag m n alpha a
            lda b ldb)
     <> Throw (errWrongArg "strmm" 1)) /\
  (forall (lowerChar : string -> string) setCol,
     lowerChar "" = "" -> lowerChar "u" = "u" -> lowerChar "n" = "n" ->
     strmm store64 lowerChar setCol "" "u" "n" "n" 2 1 2%float exA 2 exB 2
     = (Normal, realMatrix 2 [6; 6]%float)).
Proof.
  split.
  - intros fround lowerChar setCol side uplo transA diag m n alpha a lda b
      ldb Hs. unfold strmm. cbv zeta. rewrite Hs.
    match goal with |- context [strmm_info ?a1 ?a2 ?a3 ?a4 ?a5 ?a6 ?a7 ?a8 ?a9] =>
      assert (Hne : strmm_info a1 a2 a3 a4 a5 a6 a7 a8 a9 <> 1);
      [| generalize dependent (strmm_info a1 a2 a3 a4 a5 a6 a7 a8 a9) ]
    end.
    + unfold strmm_info. change (includes "lr" "") with true. cbn [negb].
      repeat match goal with |- context [if ?c then _ else _] => destruct c end;
        simpl; lia.
    + intros info Hne.
      repeat match goal with |- context [if ?c then _ else _] => destruct c end;
        simpl; congruence.
  - intros lowerChar setCol H0 Hu Hn. unfold strmm. cbv zeta.
    rewrite H0, Hu, Hn. vm_compute. reflexivity.
Qed.

Section Chbmv_validation.
Variable fround : float -> float.

Lemma chbmv_throws (_uplo : string) (n k : Z) (alpha : Complex) (a : Matrix)
    (lda : Z) (x : FortranArr) (incx : Z) (beta : Complex) (y : FortranArr)
    (incy : Z) (ai xi yi : fpArray) (p : Z) :
  mi a = Some ai -> vi x = Some xi -> vi y = Some yi ->
  chbmv_info (lower0x20 _uplo) n k lda incx incy = p -> p <> 0 ->
  chbmv fround _uplo n k alpha a lda x incx beta y incy
  = (Throw (errWrongArg "chbmv" p), y).
Proof.
  intros Ha Hx Hy Hinfo Hp. unfold chbmv. rewrite Ha, Hx, Hy. cbv zeta.
  rewrite Hinfo.
  destruct (Z.eqb_spec p 0) as [E | _]; [contradiction | reflexivity].
Qed.

Lemma chbmv_passes (_uplo : string) (n k : Z) (alpha : Complex) (a : Matrix)
    (lda : Z) (x : FortranArr) (incx : Z) (beta : Complex) (y : FortranArr)
    (incy : Z) (ai xi yi : fpArray) :
  mi a = Some ai -> vi x = Some xi -> vi y = Some yi ->
  chbmv_info (lower0x20 _uplo) n k lda incx incy = 0 ->
  chbmv fround _uplo n k alpha a lda x incx beta y incy
  = (Normal,
     let '(yr', yi') :=
       chbmv_run fround n k (re alpha) (im alpha) (re beta) (im beta)
         (mr a) ai (colOfEx a) (vr x) xi (base x) (base y) incx incy
         (lower0x20 _uplo) (vr y) yi in
     mkFortranArr (base y) yr' (Some yi')).
Proof.
  intros Ha Hx Hy Hinfo. unfold chbmv. rewrite Ha, Hx, Hy. cbv zeta.
  rewrite Hinfo. simpl. now destruct chbmv_run.
Qed.

Lemma chbmv_throw_keeps_y (_uplo : string) (n k : Z) (alpha : Complex)
    (a : Matrix) (lda : Z) (x : FortranArr) (incx : Z) (beta : Complex)
    (y : FortranArr) (incy : Z) (e : Error) :
  fst (chbmv fround _uplo n k alpha a lda x incx beta y incy) = Throw e ->
  snd (chbmv fround _uplo n k alpha a lda x incx beta y incy) = y.
Proof.
  unfold chbmv.
  destruct (mi a); [|reflexivity].
  destruct (vi x); [|reflexivity].
  destruct (vi y); [|reflexivity].
  cbv zeta. destruct (negb _); [reflexivity|].
  destruct chbmv_run. simpl. discriminate.
Qed.

End Chbmv_validation.

Lemma chbmv_info_cases (ul : string) (n k lda incx incy : Z) :
  chbmv_info ul n k lda incx incy =
    if negb (String.eqb ul "u") && negb (String.eqb ul "l") then 1
    else if n <? 0 then 2
    else if k <? 0 then 3
    else if lda <? k + 1 then 6
    else if incx =? 0 then 8
    else if incy =? 0 then 11
    else 0.
Proof. reflexivity. Qed.

Lemma uplo_code_ok (ul : string) :
  ul = "u" \/ ul = "l" ->
  negb (String.eqb ul "u") && negb (String.eqb ul "l") = false.
Proof. intros [-> | ->]; reflexivity. Qed.

Lemma uplo_code_bad (ul : string) :
  ul <> "u" -> ul <> "l" ->
  negb (String.eqb ul "u") && negb (String.eqb ul "l") = true.
Proof.
  intros Hu Hl.
  destruct (String.eqb_spec ul "u"); [contradiction|].
  destruct (String.eqb_spec ul "l"); [contradiction|]. reflexivity.
Qed.

Ltac decide_Z_tests :=
  repeat match goal with
  | |- context [?x <? ?y] => destruct (Z.ltb_spec x y); try lia
  | |- context [?x =? ?y] => destruct (Z.eqb_spec x y); try lia
  end.

(** C5: with the three imaginary buffers present, [chbmv] checks the uplo
    code (1), [n < 0] (2), [k < 0] (3), [lda < k + 1] (6), [incx == 0] (8)
    and [incy == 0] (11) in this order; the first failing check is the one
    thrown whatever the later arguments are, a call that passes all of
    them completes normally, and a call that throws leaves [y] as it
    was. *)
Theorem chbmv_validation_order (fround : float -> float) (_uplo : string)
    (n k : Z) (alpha : Complex) (a : Matrix) (lda : Z) (x : FortranArr)
    (incx : Z) (beta : Complex) (y : FortranArr) (incy : Z)
    (ai xi yi : fpArray) :
  mi a = Some ai -> vi x = Some xi -> vi y = Some yi ->
  let ul := lower0x20 _uplo in
  let res := chbmv fround _uplo n k alpha a lda x incx beta y incy in
  let thrown p := res = (Throw (errWrongArg "chbmv" p), y) in
  let code_ok := ul = "u" \/ ul = "l" in
  (ul <> "u" -> ul <> "l" -> thrown 1) /\
  (code_ok -> n < 0 -> thrown 2) /\
  (code_ok -> 0 <= n -> k < 0 -> thrown 3) /\
  (code_ok -> 0 <= n -> 0 <= k -> lda < k + 1 -> thrown 6) /\
  (code_ok -> 0 <= n -> 0 <= k -> k + 1 <= lda -> incx = 0 -> thrown 8) /\
  (code_ok -> 0 <= n -> 0 <= k -> k + 1 <= lda -> incx <> 0 -> incy = 0 ->
     thrown 11) /\
  (code_ok -> 0 <= n -> 0 <= k -> k + 1 <= lda -> incx <> 0 -> incy <> 0 ->
     fst res = Normal) /\
  (forall e, fst res = Throw e -> snd res = y).
Proof.
  intros Ha Hx Hy. cbv zeta.
  repeat match goal with |- _ /\ _ => split end.
  - intros Hu Hl. apply (chbmv_throws _ _ _ _ _ _ _ _ _ _ _ _ _ _ _ _ Ha Hx Hy); [|lia].
    rewrite chbmv_info_cases, uplo_code_bad by assumption. reflexivity.
  - intros Hc Hn. apply (chbmv_throws _ _ _ _ _ _ _ _ _ _ _ _ _ _ _ _ Ha Hx Hy); [|lia].
    rewrite chbmv_info_cases, uplo_code_ok by assumption. now decide_Z_tests.
  - intros Hc Hn Hk. apply (chbmv_throws _ _ _ _ _ _ _ _ _ _ _ _ _ _ _ _ Ha Hx Hy); [|lia].
    rewrite chbmv_info_cases, uplo_code_ok by assumption. now decide_Z_tests.
  - intros Hc Hn Hk Hl. apply (chbmv_throws _ _ _ _ _ _ _ _ _ _ _ _ _ _ _ _ Ha Hx Hy); [|lia].
    rewrite chbmv_info_cases, uplo_code_ok by assumption. now decide_Z_tests.
  - intros Hc Hn Hk Hl Hix. apply (chbmv_throws _ _ _ _ _ _ _ _ _ _ _ _ _ _ _ _ Ha Hx Hy); [|lia].
    rewrite chbmv_info_cases, uplo_code_ok by assumption. now decide_Z_tests.
  - intros Hc Hn Hk Hl Hix Hiy. apply (chbmv_throws _ _ _ _ _ _ _ _ _ _ _ _ _ _ _ _ Ha Hx Hy); [|lia].
    rewrite chbmv_info_cases, uplo_code_ok by assumption. now decide_Z_tests.
  - intros Hc Hn Hk Hl Hix Hiy.
    rewrite (chbmv_passes _ _ _ _ _ _ _ _ _ _ _ _ _ _ _ Ha Hx Hy); [reflexivity|].
    rewrite chbmv_info_cases, uplo_code_ok by assumption. now decide_Z_tests.
  - intros e. apply chbmv_throw_keeps_y.
Qed.

(** ** Early exits *)

(** C8: on an input that passes validation, [chbmv] with [n == 0], or with
    [alpha == 0] and [beta == 1], and [strmm] with [m == 0] or [n == 0],
    complete normally with the output operand exactly as it was. *)
Theorem early_exits_keep_output (fround : float -> float)
    (lowerChar : string -> string)
    (setCol : Matrix -> Z -> Z -> Z -> float -> Matrix) :
  (forall _uplo n k alpha a lda x incx beta y incy ai xi yi,
     mi a = Some ai -> vi x = Some xi -> vi y = Some yi ->
     chbmv_info (lower0x20 _uplo) n k lda incx incy = 0 ->
     n = 0 \/ (alphaIsZero (re alpha) (im alpha) = true /\
               betaIsOne (re beta) (im beta) = true) ->
     chbmv fround _uplo n k alpha a lda x incx beta y incy = (Normal, y)) /\
  (forall side uplo transA diag m n alpha a lda b ldb,
     strmm_info (lowerChar side) (lowerChar uplo) (lowerChar transA)
       (lowerChar diag) m n
       (if String.eqb (lowerChar side) "l" then m else n) lda ldb = 0 ->
     m = 0 \/ n = 0 ->
     strmm fround lowerChar setCol side uplo transA diag m n alpha a lda b ldb
     = (Normal, b)).
Proof.
  split.
  - intros _uplo n k alpha a lda x incx beta y incy ai xi yi Ha Hx Hy Hinfo Hexit.
    rewrite (chbmv_passes _ _ _ _ _ _ _ _ _ _ _ _ _ _ _ Ha Hx Hy Hinfo).
    unfold chbmv_run.
    assert (Hc : (n =? 0) || (alphaIsZero (re alpha) (im alpha)
                              && betaIsOne (re beta) (im beta)) = true).
    { destruct Hexit as [-> | [-> ->]]; [reflexivity | apply orb_true_r]. }
    rewrite Hc. destruct y as [yb yr yi']; simpl in *. now subst.
  - intros side uplo transA diag m n alpha a lda b ldb Hinfo Hexit.
    unfold strmm. cbv zeta. rewrite Hinfo.
    assert (Hc : (m =? 0) || (n =? 0) = true).
    { destruct Hexit as [-> | ->]; [reflexivity | apply orb_true_r]. }
    now rewrite Hc.
Qed.

(** ** transA *)

(** C9: a transA that normalises to ['c'] passes the check at position 3,
    as ['n'] and ['t'] do, and [strmm] then does exactly what it does for
    one that normalises to ['t']: the same completion and the same [B]. *)
Theorem strmm_transA_c_as_t (fround : float -> float)
    (lowerChar : string -> string)
    (setCol : Matrix -> Z -> Z -> Z -> float -> Matrix)
    (tc tt : string) (side uplo diag : string) (m n : Z) (alpha : float)
    (a : Matrix) (lda : Z) (b : Matrix) (ldb : Z) :
  lowerChar tc = "c" -> lowerChar tt = "t" ->
  strmm fround lowerChar setCol side uplo tc diag m n alpha a lda b ldb
  = strmm fround lowerChar setCol side uplo tt diag m n alpha a lda b ldb /\
  (forall tA, lowerChar tA = "n" \/ lowerChar tA = "t" \/ lowerChar tA = "c" ->
     fst (strmm fround lowerChar setCol side uplo tA diag m n alpha a lda b ldb)
     <> Throw (errWrongArg "strmm" 3)).
Proof.
  intros Hc Ht. split.
  - unfold strmm, strmm_info. now rewrite Hc, Ht.
  - intros tA HtA.
    assert (Hin : includes "ntc" (lowerChar tA) = true)
      by (destruct HtA as [-> | [-> | ->]]; reflexivity).
    unfold strmm. cbv zeta.
    match goal with |- context [strmm_info ?a1 ?a2 ?a3 ?a4 ?a5 ?a6 ?a7 ?a8 ?a9] =>
      assert (Hne : strmm_info a1 a2 a3 a4 a5 a6 a7 a8 a9 <> 3);
      [| generalize dependent (strmm_info a1 a2 a3 a4 a5 a6 a7 a8 a9) ]
    end.
    + unfold strmm_info. rewrite Hin. cbn [negb].
      repeat match goal with |- context [if ?c then _ else _] => destruct c end;
        simpl; lia.
    + intros info Hne.
      repeat match goal with |- context [if ?c then _ else _] => destruct c end;
        simpl; congruence.
Qed.

(** ** Loops and stores *)

Section Loop_facts.
Context {S : Type}.
Implicit Types (f g body : Z -> S -> S) (s : S).

Lemma for_from_ext (cnt : nat) (step i : Z) f g s :
  (forall t s', (t < cnt)%nat ->
     f (i + Z.of_nat t * step) s' = g (i + Z.of_nat t * step) s') ->
  for_from cnt step i f s = for_from cnt step i g s.
Proof.
  revert i s. induction cnt as [|c IH]; intros i s H; [reflexivity|].
  simpl. specialize (H 0%nat s) as H0.
  rewrite Z.mul_0_l, Z.add_0_r in H0. rewrite H0 by lia.
  apply IH. intros t s' Ht.
  specialize (H (Datatypes.S t) s').
  replace (i + Z.of_nat (Datatypes.S t) * step)
    with (i + step + Z.of_nat t * step) in H by lia.
  apply H. lia.
Qed.

Lemma for_up_ext (lo hi : Z) f g s :
  (forall j s', lo <= j <= hi -> f j s' = g j s') ->
  for_up lo hi f s = for_up lo hi g s.
Proof.
  intros H. unfold for_up. apply for_from_ext.
  intros t s' Ht. apply H. lia.
Qed.

Lemma for_down_ext (hi lo : Z) f g s :
  (forall j s', lo <= j <= hi -> f j s' = g j s') ->
  for_down hi lo f s = for_down hi lo g s.
Proof.
  intros H. unfold for_down. apply for_from_ext.
  intros t s' Ht. apply H. lia.
Qed.

(** The invariant rule: [P t] holds of the state after [t] rounds. *)
Lemma for_from_inv (P : nat -> S -> Prop) (cnt : nat) (step i : Z) body s :
  P 0%nat s ->
  (forall t s', (t < cnt)%nat -> P t s' ->
     P (Datatypes.S t) (body (i + Z.of_nat t * step) s')) ->
  P cnt (for_from cnt step i body s).
Proof.
  revert P i s. induction cnt as [|c IH]; intros P i s H0 Hstep; [exact H0|].
  simpl. apply (IH (fun t => P (Datatypes.S t))).
  - specialize (Hstep 0%nat s). rewrite Z.mul_0_l, Z.add_0_r in Hstep.
    apply Hstep; [lia | exact H0].
  - intros t s' Ht HP.
    replace (i + step + Z.of_nat t * step)
      with (i + Z.of_nat (Datatypes.S t) * step) by lia.
    apply Hstep; [lia | exact HP].
Qed.

Lemma for_up_inv (P : Z -> S -> Prop) (lo hi : Z) body s :
  P lo s ->
  (forall j s', lo <= j <= hi -> P j s' -> P (j + 1) (body j s')) ->
  P (Z.max lo (hi + 1)) (for_up lo hi body s).
Proof.
  intros H0 Hstep. unfold for_up.
  pose (Q := fun (t : nat) s' => P (lo + Z.of_nat t) s').
  replace (Z.max lo (hi + 1)) with (lo + Z.of_nat (Z.to_nat (hi - lo + 1)))
    by lia.
  apply (for_from_inv Q).
  - unfold Q. now rewrite Z.add_0_r.
  - intros t s' Ht HQ. unfold Q in *.
    replace (lo + Z.of_nat (Datatypes.S t)) with (lo + Z.of_nat t + 1) by lia.
    rewrite Z.mul_1_r. apply Hstep; [lia | exact HQ].
Qed.

End Loop_facts.

Section Store_facts.
Variable fround : float -> float.

Lemma get_set_ne (a : fpArray) (idx p : Z) (v : float) :
  p <> idx -> get (set fround a idx v) p = get a p.
Proof.
  intros Hne. unfold get, set.
  destruct (Z.ltb_spec idx 0); [reflexivity|].
  destruct (Z.ltb_spec p 0); [reflexivity|].
  rewrite list_lookup_insert_ne by lia. reflexivity.
Qed.

Lemma get_set_eq (a : fpArray) (idx : Z) (v : float) :
  0 <= idx < Z.of_nat (length a) ->
  get (set fround a idx v) idx = fround v.
Proof.
  intros H. unfold get, set.
  destruct (Z.ltb_spec idx 0); [lia|].
  rewrite list_lookup_insert_eq by lia. reflexivity.
Qed.

Lemma length_set (a : fpArray) (idx : Z) (v : float) :
  length (set fround a idx v) = length a.
Proof.
  unfold set. destruct (idx <? 0); [reflexivity | apply length_insert].
Qed.

End Store_facts.

(** ** Unit diagonal *)

Ltac same_loops H :=
  repeat first
    [ reflexivity
    | progress cbv zeta
    | rewrite H by lia
    | apply for_up_ext; intros ? ? ?
    | apply for_down_ext; intros ? ? ?
    | match goal with
      | |- (if ?c then _ else _) = (if ?c then _ else _) => destruct c
      end
    | f_equal ].

Section Unit_diagonal.
Variable fround : float -> float.
Variables (m n : Z) (alpha : float).
Variables (ar1 ar2 : fpArray) (ca1 ca2 cb : Z -> Z).

(** [A] is of order [m] when it multiplies from the left. *)
Section Left.
Hypothesis Hoff : forall i j, 1 <= i <= m -> 1 <= j <= m -> i <> j ->
  get ar1 (ca1 j + i) = get ar2 (ca2 j + i).

Lemma left_n_upper_unit (br : fpArray) :
  left_n_upper fround false m n alpha ar1 ca1 cb br
  = left_n_upper fround false m n alpha ar2 ca2 cb br.
Proof. unfold left_n_upper. same_loops Hoff. Qed.

Lemma left_n_lower_unit (br : fpArray) :
  left_n_lower fround false m n alpha ar1 ca1 cb br
  = left_n_lower fround false m n alpha ar2 ca2 cb br.
Proof. unfold left_n_lower. same_loops Hoff. Qed.

Lemma left_t_upper_unit (br : fpArray) :
  left_t_upper fround false m n alpha ar1 ca1 cb br
  = left_t_upper fround false m n alpha ar2 ca2 cb br.
Proof. unfold left_t_upper. same_loops Hoff. Qed.

Lemma left_t_lower_unit (br : fpArray) :
  left_t_lower fround false m n alpha ar1 ca1 cb br
  = left_t_lower fround false m n alpha ar2 ca2 cb br.
Proof. unfold left_t_lower. same_loops Hoff. Qed.

End Left.

(** [A] is of order [n] when it multiplies from the right. *)
Section Right.
Hypothesis Hoff : forall i j, 1 <= i <= n -> 1 <= j <= n -> i <> j ->
  get ar1 (ca1 j + i) = get ar2 (ca2 j + i).

Lemma right_n_upper_unit (br : fpArray) :
  right_n_upper fround false m n alpha ar1 ca1 cb br
  = right_n_upper fround false m n alpha ar2 ca2 cb br.
Proof. unfold right_n_upper. same_loops Hoff. Qed.

Lemma right_n_lower_unit (br : fpArray) :
  right_n_lower fround false m n alpha ar1 ca1 cb br
  = right_n_lower fround false m n alpha ar2 ca2 cb br.
Proof. unfold right_n_lower. same_loops Hoff. Qed.

Lemma right_t_upper_unit (br : fpArray) :
  right_t_upper fround false m n alpha ar1 ca1 cb br
  = right_t_upper fround false m n alpha ar2 ca2 cb br.
Proof. unfold right_t_upper. same_loops Hoff. Qed.

Lemma right_t_lower_unit (br : fpArray) :
  right_t_lower fround false m n alpha ar1 ca1 cb br
  = right_t_lower fround false m n alpha ar2 ca2 cb br.
Proof. unfold right_t_lower. same_loops Hoff. Qed.

End Right.
End Unit_diagonal.

(** C7: with a diag that normalises to ['u'], two calls of [strmm] whose
    [A] operands agree in every off-diagonal entry [A(i,j)], [i <> j],
    complete the same way with the same [B], in each of the eight
    branches: the diagonal of [A] is not read. *)
Theorem strmm_unit_diag_ignores_diagonal (fround : float -> float)
    (lowerChar : string -> string)
    (setCol : Matrix -> Z -> Z -> Z -> float -> Matrix)
    (side uplo transA diag : string) (m n : Z) (alpha : float)
    (a1 a2 : Matrix) (lda : Z) (b : Matrix) (ldb : Z) :
  lowerChar diag = "u" ->
  offdiag_eq (if String.eqb (lowerChar side) "l" then m else n) a1 a2 ->
  strmm fround lowerChar setCol side uplo transA diag m n alpha a1 lda b ldb
  = strmm fround lowerChar setCol side uplo transA diag m n alpha a2 lda b ldb.
Proof.
  intros Hdiag Hoff. unfold offdiag_eq, entry in Hoff.
  unfold strmm. cbv zeta. rewrite Hdiag.
  change (String.eqb "u" "n") with false.
  destruct (negb _); [reflexivity|].
  destruct (_ || _); [reflexivity|].
  destruct (alpha =? 0)%float; [reflexivity|].
  destruct (String.eqb (lowerChar side) "l");
    destruct (String.eqb (lowerChar transA) "n");
    destruct (String.eqb (lowerChar uplo) "u");
    do 2 f_equal;
    auto using left_n_upper_unit, left_n_lower_unit, left_t_upper_unit,
      left_t_lower_unit, right_n_upper_unit, right_n_lower_unit,
      right_t_upper_unit, right_t_lower_unit.
Qed.

(** ** The worked strmm example *)

(** A read that yields a number other than [NaN] is inside the buffer. *)
Lemma get_defined (a : fpArray) (idx : Z) (v : float) :
  get a idx = v -> (v =? v)%float = true -> 0 <= idx < Z.of_nat (length a).
Proof.
  unfold get. intros H Hv.
  destruct (Z.ltb_spec idx 0).
  - subst v. discriminate Hv.
  - destruct (a !! Z.to_nat idx) eqn:E.
    + apply lookup_lt_Some in E. lia.
    + simpl in H. subst v. discriminate Hv.
Qed.

(** C6: [strmm('l','u','n','n', m=2, n=1, alpha=2.0)] on an upper
    triangular [A] with [A(1,1) = 3], [A(1,2) = 5], [A(2,2) = 7] and on
    [B = [1; 1]] completes normally with [B = [16; 14]], every other
    element of the buffer of [B] left as it was; this for any storage
    accessor of [A] and [B], any leading dimensions from 2 on, and either
    element type of [B] (the stores of 6, 16 and 14 are exact). *)
Theorem strmm_worked_example (fround : float -> float)
    (lowerChar : string -> string)
    (setCol : Matrix -> Z -> Z -> Z -> float -> Matrix)
    (a b : Matrix) (lda ldb : Z) :
  lowerChar "l" = "l" -> lowerChar "u" = "u" -> lowerChar "n" = "n" ->
  fround 6%float = 6%float -> fround 16%float = 16%float ->
  fround 14%float = 14%float ->
  2 <= lda -> 2 <= ldb ->
  entry a 1 1 = 3%float -> entry a 1 2 = 5%float -> entry a 2 2 = 7%float ->
  entry b 1 1 = 1%float -> entry b 2 1 = 1%float ->
  let res :=
    strmm fround lowerChar setCol "l" "u" "n" "n" 2 1 2%float a lda b ldb in
  fst res = Normal /\
  entry (snd res) 1 1 = 16%float /\ entry (snd res) 2 1 = 14%float /\
  (forall p, p <> colOfEx b 1 + 1 -> p <> colOfEx b 1 + 2 ->
     get (mr (snd res)) p = get (mr b) p).
Proof.
  intros Hl Hu Hn F6 F16 F14 Hlda Hldb A11 A12 A22 B11 B21.
  unfold entry in *.
  pose proof (get_defined _ _ _ B11 eq_refl) as R1.
  pose proof (get_defined _ _ _ B21 eq_refl) as R2.
  cbv zeta. unfold strmm. rewrite Hl, Hu, Hn. cbv zeta.
  change (String.eqb "l" "l") with true.
  change (String.eqb "u" "u") with true.
  change (String.eqb "n" "n") with true.
  cbv iota.
  assert (Hinfo : strmm_info "l" "u" "n" "n" 2 1 2 lda ldb = 0).
  { unfold strmm_info. simpl.
    destruct (Z.ltb_spec lda (Z.max 1 2)); [lia|].
    destruct (Z.ltb_spec ldb (Z.max 1 2)); [lia|]. reflexivity. }
  rewrite Hinfo.
  change (negb (0 =? 0)) with false.
  change ((2 =? 0) || (1 =? 0)) with false.
  change (2 =? 0)%float with false. cbv iota.
  unfold left_n_upper, for_up.
  change (Z.to_nat (1 - 1 + 1)) with 1%nat.
  change (Z.to_nat (2 - 1 + 1)) with 2%nat.
  cbn [for_from fst snd with_mr mr colOfEx].
  set (c := colOfEx b 1) in *.
  change (1 + 1) with 2.
  change (Z.to_nat (1 - 1 - 1 + 1)) with 0%nat.
  change (Z.to_nat (2 - 1 - 1 + 1)) with 1%nat.
  cbn [for_from].
  rewrite B11, A11.
  change (negb (1 =? 0)%float) with true. cbv iota.
  change (2 * 1 * 3)%float with 6%float.
  rewrite !(get_set_ne fround _ (c + 1) (c + 2)) by lia.
  rewrite B21, A12, A22.
  change (negb (1 =? 0)%float) with true. cbv iota.
  rewrite (get_set_eq fround _ (c + 1)) by lia. rewrite F6.
  change (6 + 2 * 1 * 5)%float with 16%float.
  change (2 * 1 * 7)%float with 14%float.
  repeat split.
  - rewrite (get_set_ne fround _ (c + 2) (c + 1)) by lia.
    rewrite (get_set_eq fround _ (c + 1)) by (rewrite length_set; lia).
    exact F16.
  - rewrite (get_set_eq fround _ (c + 2)) by (rewrite !length_set; lia).
    exact F14.
  - intros p Hp1 Hp2. now rewrite !get_set_ne by assumption.
Qed.

(** ** The pass over [y] before the accumulation *)

Lemma one_is_not_zero (v : float) :
  (v =? 1)%float = true -> (v =? 0)%float = false.
Proof.
  rewrite !FloatAxioms.eqb_spec.
  change (Prim2SF 1) with (S754_finite false 4503599627370496 (-52)).
  change (Prim2SF 0) with (S754_zero false).
  destruct (Prim2SF v) as [s | s | | s mv e]; try discriminate.
  - destruct s; discriminate.
  - intros _. destruct s; reflexivity.
Qed.

Lemma betaIsOne_not_zero (BetaRe BetaIm : float) :
  betaIsOne BetaRe BetaIm = true -> betaIsZero BetaRe BetaIm = false.
Proof.
  unfold betaIsOne, betaIsZero. intros H.
  apply andb_true_iff in H as [H _].
  now rewrite (one_is_not_zero _ H).
Qed.

Section Chbmv_frame.
Variable fround : float -> float.
Variables (n k : Z) (AlphaRe AlphaIm BetaRe BetaIm : float).
Variables (ar ai : fpArray) (ca : Z -> Z).
Variables (xr xi : fpArray) (xbase ybase incx incy : Z).
Variables (yr0 yi0 : fpArray).

Local Abbreviation pos := (position n incy ybase).
Local Abbreviation kept := (same_off_stride n incy ybase yr0 yi0).

Lemma pos_strided (t : Z) : 0 <= t < n -> strided n incy ybase (pos t).
Proof. intros H. exists t. split; [exact H | reflexivity]. Qed.

Lemma kept_refl : kept yr0 yi0.
Proof. intros p _. split; reflexivity. Qed.

Lemma kept_set_r (yr yi : fpArray) (idx : Z) (v : float) :
  kept yr yi -> strided n incy ybase idx -> kept (set fround yr idx v) yi.
Proof.
  intros H Hidx p Hp. destruct (H p Hp) as [H1 H2]. split; [|exact H2].
  rewrite get_set_ne; [exact H1|]. intros ->. contradiction.
Qed.

Lemma kept_set_i (yr yi : fpArray) (idx : Z) (v : float) :
  kept yr yi -> strided n incy ybase idx -> kept yr (set fround yi idx v).
Proof.
  intros H Hidx p Hp. destruct (H p Hp) as [H1 H2]. split; [exact H1|].
  rewrite get_set_ne; [exact H2|]. intros ->. contradiction.
Qed.

Lemma inner_step_kept (t1r t1i : float) (aidx : Z) (s : inner_st) :
  kept (i_yr s) (i_yi s) -> strided n incy ybase (i_iy s) ->
  let s' := inner_step fround ar ai xr xi t1r t1i aidx s in
  kept (i_yr s') (i_yi s') /\ i_iy s' = i_iy s.
Proof.
  intros H Hs. unfold inner_step. cbn. split; [|reflexivity].
  apply kept_set_i; [apply kept_set_r|]; assumption.
Qed.

Lemma upper_col_kept (j : Z) (o : outer_st) :
  0 <= k -> 1 <= j <= n ->
  o_ky o = start_index n incy + Z.max 0 (j - 1 - k) * incy ->
  kept (o_yr o) (o_yi o) ->
  let o' := upper_col fround k AlphaRe AlphaIm ar ai ca xr xi xbase ybase incx incy j o in
  o_ky o' = start_index n incy + Z.max 0 (j - k) * incy /\
  kept (o_yr o') (o_yi o').
Proof.
  intros Hk Hj Hky Hkept. unfold upper_col. cbv zeta.
  match goal with |- context [for_up ?lo ?hi ?body ?s0] =>
    pose proof (for_up_inv
      (fun i s => i_iy s = pos (i - 1) /\ kept (i_yr s) (i_yi s))
      lo hi body s0) as HI;
    set (s := for_up lo hi body s0) in *
  end.
  cbv beta in HI.
  assert (Hs : i_iy s = pos (j - 1) /\ kept (i_yr s) (i_yi s)).
  { replace (j - 1) with (Z.max (Z.max 1 (j - k)) (j - 1 + 1) - 1) by lia.
    apply HI.
    - cbn. split; [|exact Hkept]. rewrite Hky. unfold position.
      replace (Z.max 1 (j - k) - 1) with (Z.max 0 (j - 1 - k)) by lia. ring.
    - intros i s' Hi [Hiy Hkp].
      destruct (inner_step_kept
        (AlphaRe * get xr (o_jx o) - AlphaIm * get xi (o_jx o))%float
        (AlphaRe * get xi (o_jx o) + AlphaIm * get xr (o_jx o))%float
        (ca j + (k + 1 - j) + i) s' Hkp) as [Hkp' Hiy'].
      { rewrite Hiy. apply pos_strided. lia. }
      cbn [i_yr i_yi i_iy]. split; [|exact Hkp'].
      rewrite Hiy', Hiy. unfold position. ring. }
  destruct Hs as [Hiy Hkp].
  assert (Hst : strided n incy ybase (i_iy s))
    by (rewrite Hiy; apply pos_strided; lia).
  destruct (Z.gtb_spec j k); cbn [o_ky o_yr o_yi].
  - split; [rewrite Hky, (Z.max_r 0 (j - 1 - k)), (Z.max_r 0 (j - k)) by lia; ring|].
    apply kept_set_i; [apply kept_set_r|]; assumption.
  - split; [rewrite Hky, (Z.max_l 0 (j - 1 - k)), (Z.max_l 0 (j - k)) by lia; ring|].
    apply kept_set_i; [apply kept_set_r|]; assumption.
Qed.

Lemma lower_col_kept (j : Z) (o : outer_st) :
  1 <= j <= n ->
  o_jy o = pos (j - 1) ->
  kept (o_yr o) (o_yi o) ->
  let o' := lower_col fround n k AlphaRe AlphaIm ar ai ca xr xi incx incy j o in
  o_jy o' = pos j /\ kept (o_yr o') (o_yi o').
Proof.
  intros Hj Hjy Hkept. unfold lower_col. cbv zeta.
  assert (Hst : strided n incy ybase (o_jy o))
    by (rewrite Hjy; apply pos_strided; lia).
  match goal with |- context [for_up ?lo ?hi ?body ?s0] =>
    pose proof (for_up_inv
      (fun i s => i_iy s = pos (i - 2) /\ kept (i_yr s) (i_yi s))
      lo hi body s0) as HI;
    set (s := for_up lo hi body s0) in *
  end.
  cbv beta in HI.
  assert (Hs : kept (i_yr s) (i_yi s)).
  { apply HI.
    - cbn. split; [rewrite Hjy; unfold position; ring|].
      apply kept_set_i; [apply kept_set_r|]; assumption.
    - intros i s' Hi [Hiy Hkp].
      match goal with |- context [inner_step _ _ _ _ _ ?a ?b ?c ?d] =>
        destruct (inner_step_kept a b c d) as [Hkp' Hiy']
      end.
      + exact Hkp.
      + cbn [i_iy]. rewrite Hiy.
        replace (pos (i - 2) + incy) with (pos (i - 1)) by (unfold position; ring).
        apply pos_strided. lia.
      + split; [|exact Hkp'].
        rewrite Hiy'. cbn [i_iy]. rewrite Hiy. unfold position. ring. }
  cbn [o_jy o_yr o_yi]. split; [rewrite Hjy; unfold position; ring|].
  apply kept_set_i; [apply kept_set_r|]; assumption.
Qed.


Lemma scale_loop_kept :
  ybase = 0 ->
  let r := scale_loop fround n BetaRe BetaIm incy (start_index n incy) yr0 yi0 in
  kept (fst r) (snd r).
Proof.
  intros Hb. unfold scale_loop. cbv zeta. cbn [fst snd].
  match goal with |- context [for_up ?lo ?hi ?body ?s0] =>
    pose proof (for_up_inv
      (fun i s => s_iy s = pos (i - 1) /\ kept (s_yr s) (s_yi s))
      lo hi body s0) as HI;
    set (s := for_up lo hi body s0) in *
  end.
  cbv beta in HI. apply HI.
  - cbn. split; [unfold position; lia | apply kept_refl].
  - intros i s' Hi [Hiy Hkp]. cbn [s_iy s_yr s_yi].
    assert (Hst : strided n incy ybase (s_iy s'))
      by (rewrite Hiy; apply pos_strided; lia).
    split; [rewrite Hiy; unfold position; ring|].
    apply kept_set_i; [apply kept_set_r|]; assumption.
Qed.

Lemma beta_pass_kept :
  ybase = 0 \/ betaIsOne BetaRe BetaIm = false ->
  let r := beta_pass fround n BetaRe BetaIm incy (start_index n incy) yr0 yi0 in
  kept (fst r) (snd r).
Proof.
  intros Hc. unfold beta_pass. cbv zeta.
  destruct (betaIsOne BetaRe BetaIm) eqn:E1.
  - rewrite (betaIsOne_not_zero _ _ E1). cbn [andb].
    destruct Hc as [Hb | Hc]; [|discriminate Hc].
    now apply scale_loop_kept.
  - apply kept_refl.
Qed.

Lemma chbmv_run_kept (ul : string) :
  0 <= k ->
  ybase = 0 \/ betaIsOne BetaRe BetaIm = false ->
  let r := chbmv_run fround n k AlphaRe AlphaIm BetaRe BetaIm ar ai ca
             xr xi xbase ybase incx incy ul yr0 yi0 in
  kept (fst r) (snd r).
Proof.
  intros Hk Hc. unfold chbmv_run. cbv zeta.
  destruct (_ || _); [apply kept_refl|].
  pose proof (beta_pass_kept Hc) as Hb. cbv zeta in Hb.
  fold (start_index n incy).
  destruct (beta_pass _ _ _ _ _ _ _ _) as [yr1 yi1]. cbn [fst snd] in Hb.
  destruct (alphaIsZero _ _); [exact Hb|]. cbn [fst snd].
  destruct (String.eqb ul "u").
  - match goal with |- context [for_up ?lo ?hi ?body ?s0] =>
      pose proof (for_up_inv
        (fun j o => o_ky o = start_index n incy + Z.max 0 (j - 1 - k) * incy
                    /\ kept (o_yr o) (o_yi o))
        lo hi body s0) as HI;
      set (o := for_up lo hi body s0) in *
    end.
    cbv beta in HI. apply HI.
    + cbn. split; [|exact Hb]. rewrite Z.max_l by lia. lia.
    + intros j o' Hj [Hky Hkp].
      replace (j + 1 - 1 - k) with (j - k) by lia.
      now apply upper_col_kept.
  - match goal with |- context [for_up ?lo ?hi ?body ?s0] =>
      pose proof (for_up_inv
        (fun j o => o_jy o = pos (j - 1) /\ kept (o_yr o) (o_yi o))
        lo hi body s0) as HI;
      set (o := for_up lo hi body s0) in *
    end.
    cbv beta in HI. apply HI.
    + cbn. split; [|exact Hb]. unfold position. lia.
    + intros j o' Hj [Hjy Hkp].
      replace (j + 1 - 1) with j by lia.
      now apply lower_col_kept.
Qed.

End Chbmv_frame.

Lemma chbmv_info_zero_k (ul : string) (n k lda incx incy : Z) :
  chbmv_info ul n k lda incx incy = 0 -> 0 <= k.
Proof.
  unfold chbmv_info.
  destruct (negb _ && negb _); [discriminate|].
  destruct (Z.ltb_spec n 0); [discriminate|].
  destruct (Z.ltb_spec k 0); [discriminate|]. intros _. assumption.
Qed.

Lemma chbmv_info_zero_n (ul : string) (n k lda incx incy : Z) :
  chbmv_info ul n k lda incx incy = 0 -> 0 <= n.
Proof.
  unfold chbmv_info.
  destruct (negb _ && negb _); [discriminate|].
  destruct (Z.ltb_spec n 0); [discriminate|]. intros _. assumption.
Qed.

(** C10: the bulk zero-fill of [y] is indeed unreachable, its guard
    [beta == 1] and [beta == 0] holding of no [beta]; and a call leaves
    every element of [y] outside the [n] strided positions as it was
    whenever [y.base] is 0, or [beta] is not 1, or [alpha] is 0, or [n]
    is not positive.  But the strided pass of lines 90-99 indexes [y] by
    the raw [ky], where the accumulation uses [ky - y.base]: with
    [n = 1], [incy = 1], [y.base = 1], [beta = 1] and [alpha = 1] the one
    strided position of [y] is raw index 0, and the call also rewrites raw
    index 1, turning [y.i[1]] from 1 into [NaN]. *)
Theorem chbmv_scaling_pass_raw_index :
  (forall BetaRe BetaIm incy,
     betaIsOne BetaRe BetaIm && (betaIsZero BetaRe BetaIm && (incy =? 1))
     = false) /\
  (forall fround _uplo n k alpha a lda x incx beta y incy,
     base y = 0 \/ betaIsOne (re beta) (im beta) = false \/
     alphaIsZero (re alpha) (im alpha) = true \/ n <= 0 ->
     let y' := snd (chbmv fround _uplo n k alpha a lda x incx beta y incy) in
     same_off_stride n incy (base y) (vr y) (vimag y) (vr y') (vimag y')) /\
  (let y' := snd (chbmv store64 "u" 1 0 (mkComplex 1 0) exH 1 exX 1
                    (mkComplex 1 0) exY2 1) in
   ~ strided 1 1 (base exY2) 1 /\
   get (vimag y') 1 <> get (vimag exY2) 1 /\
   get (vr y') 0 <> get (vr exY2) 0).
Proof.
  split; [|split].
  - intros BetaRe BetaIm incy.
    destruct (betaIsOne _ _) eqn:E; [|reflexivity].
    now rewrite (betaIsOne_not_zero _ _ E).
  - intros fround _uplo n k alpha a lda x incx beta y incy Hc. cbv zeta.
    unfold chbmv.
    destruct (mi a) as [ai|]; [|apply kept_refl].
    destruct (vi x) as [xi|]; [|apply kept_refl].
    destruct (vi y) as [yi|] eqn:Ey; [|apply kept_refl].
    cbv zeta.
    destruct (Z.eqb_spec (chbmv_info (lower0x20 _uplo) n k lda incx incy) 0)
      as [Hinfo | _]; [|apply kept_refl].
    cbn [negb]. pose proof (chbmv_info_zero_n _ _ _ _ _ _ Hinfo) as Hn.
    apply chbmv_info_zero_k in Hinfo.
    assert (Hcase : (base y = 0 \/ betaIsOne (re beta) (im beta) = false) \/
      (n =? 0) || (alphaIsZero (re alpha) (im alpha)
                   && betaIsOne (re beta) (im beta)) = true).
    { destruct Hc as [H | [H | [H | H]]]; [left; left; exact H
        | left; right; exact H | | ].
      - destruct (betaIsOne (re beta) (im beta)); [|left; right; reflexivity].
        right. rewrite H. apply orb_true_r.
      - right. replace n with 0 by lia. reflexivity. }
    destruct Hcase as [Hold | Hexit].
    + pose proof (chbmv_run_kept fround n k (re alpha) (im alpha) (re beta)
        (im beta) (mr a) ai (colOfEx a) (vr x) xi (base x) (base y) incx incy
        (vr y) yi (lower0x20 _uplo) Hinfo Hold) as Hkept.
      cbv zeta in Hkept. destruct chbmv_run as [yr' yi'].
      unfold vimag. rewrite Ey. exact Hkept.
    + unfold chbmv_run. rewrite Hexit. unfold vimag. rewrite Ey.
      apply kept_refl.
  - cbv zeta. split; [|split].
    + intros [t [Ht Hp]]. unfold position in Hp. cbn in Hp. lia.
    + intros H. apply (f_equal (fun v => (v =? v)%float)) in H.
      vm_compute in H. discriminate H.
    + intros H. apply (f_equal (fun v => (v =? 5)%float)) in H.
      vm_compute in H. discriminate H.
Qed.

(** ** The [alpha == 0] exit of strmm *)

Section Zeroing.
Variable fround : float -> float.
Variables (m n : Z) (b : Matrix) (i0 j0 : Z).
Hypothesis Hi0 : 1 <= i0 <= m.
Hypothesis Hj0 : 1 <= j0 <= n.
Hypothesis Hin : 0 <= colOfEx b j0 + i0 < Z.of_nat (length (mr b)).

Lemma setCol_rows_zero (j : Z) (bc : Matrix) :
  colOfEx bc = colOfEx b -> length (mr bc) = length (mr b) ->
  (j0 < j -> entry bc i0 j0 = fround 0) ->
  let bc' := setCol_rows fround bc j 1 m 0%float in
  colOfEx bc' = colOfEx b /\ length (mr bc') = length (mr b) /\
  (j0 < j + 1 -> entry bc' i0 j0 = fround 0).
Proof.
  intros Hc Hlen Hdone. unfold setCol_rows, entry, with_mr. cbn [colOfEx mr].
  rewrite Hc.
  match goal with |- context [for_up ?lo ?hi ?body ?s0] =>
    pose proof (for_up_inv
      (fun i br => length br = length (mr b) /\
         (j0 < j \/ (j0 = j /\ i0 < i) -> get br (colOfEx b j0 + i0) = fround 0))
      lo hi body s0) as HI;
    set (br' := for_up lo hi body s0) in *
  end.
  cbv beta in HI.
  assert (H : length br' = length (mr b) /\
    (j0 < j \/ (j0 = j /\ i0 < Z.max 1 (m + 1)) ->
       get br' (colOfEx b j0 + i0) = fround 0)).
  { apply HI.
    - split; [exact Hlen|]. intros [H | [_ H]]; [|lia].
      specialize (Hdone H). unfold entry in Hdone. now rewrite Hc in Hdone.
    - intros i br Hi [Hl Hz]. rewrite length_set. split; [exact Hl|].
      intros Hcase.
      destruct (Z.eq_dec (colOfEx b j0 + i0) (colOfEx b j + i)) as [E | E].
      + rewrite E. apply get_set_eq. lia.
      + rewrite get_set_ne by exact E. apply Hz.
        destruct Hcase as [H | [-> H]]; [left; exact H|].
        right. split; [reflexivity|].
        assert (i0 <> i) by (intros ->; apply E; reflexivity). lia. }
  destruct H as [Hl Hz]. split; [reflexivity|]. split; [exact Hl|].
  intros Hj. apply Hz. destruct (Z.eq_dec j0 j) as [-> | Hne]; [right | left]; lia.
Qed.

Lemma strmm_zero_loop :
  let b' := for_up 1 n (fun j bc => setCol_rows fround bc j 1 m 0%float) b in
  entry b' i0 j0 = fround 0.
Proof.
  cbv zeta.
  match goal with |- context [for_up ?lo ?hi ?body ?s0] =>
    pose proof (for_up_inv
      (fun j bc => colOfEx bc = colOfEx b /\ length (mr bc) = length (mr b) /\
         (j0 < j -> entry bc i0 j0 = fround 0))
      lo hi body s0) as HI
  end.
  cbv beta in HI. apply HI; [| | lia].
  - split; [reflexivity|]. split; [reflexivity|]. lia.
  - intros j bc Hj (Hc & Hl & Hz). now apply setCol_rows_zero.
Qed.

End Zeroing.

(** ** Where the code departs from the reference routine *)

(** C1: the pass over [y] is guarded by [beta == 1], not by [beta != 1]:
    for any other [beta] it returns [y] as it was.  With [alpha = 1],
    [beta = 2], [A = [[2]]], [x = [1]] and [y = [5]] the call ends with
    [y = [7]], that is [y + alpha*A*x], where [beta*y + alpha*A*x] is
    12. *)
Theorem chbmv_beta_pass_guard_inverted :
  (forall fround n BetaRe BetaIm incy ky yr yi,
     betaIsOne BetaRe BetaIm = false ->
     beta_pass fround n BetaRe BetaIm incy ky yr yi = (yr, yi)) /\
  chbmv store64 "u" 1 0 (mkComplex 1 0) exH 1 exX 1 (mkComplex 2 0) exY 1
  = (Normal, complexVector 1 [7]%float [0]%float).
Proof.
  split.
  - intros fround n BetaRe BetaIm incy ky yr yi H. unfold beta_pass.
    now rewrite H.
  - vm_compute. reflexivity.
Qed.

(** C2: with [alpha = 0] and [beta = 2] the call of [chbmv] on [y = [5]]
    ends with [y = [5]], not with [beta*y = [10]].  The [strmm] half
    holds: with [alpha == 0] the outcome does not depend on [A], and with
    [setCol] storing [v] in the rows it is given, every element [B(i,j)],
    [1 <= i <= m], [1 <= j <= n], that lies in the buffer ends as the
    stored zero. *)
Theorem chbmv_alpha_zero_leaves_y_unscaled :
  chbmv store64 "u" 1 0 (mkComplex 0 0) exH 1 exX 1 (mkComplex 2 0) exY 1
  = (Normal, exY) /\
  (forall fround lowerChar setCol side uplo transA diag m n alpha a1 a2 lda b ldb,
     (alpha =? 0)%float = true ->
     strmm fround lowerChar setCol side uplo transA diag m n alpha a1 lda b ldb
     = strmm fround lowerChar setCol side uplo transA diag m n alpha a2 lda b ldb) /\
  (forall fround lowerChar side uplo transA diag m n alpha a lda b ldb i j,
     strmm_info (lowerChar side) (lowerChar uplo) (lowerChar transA)
       (lowerChar diag) m n
       (if String.eqb (lowerChar side) "l" then m else n) lda ldb = 0 ->
     (alpha =? 0)%float = true ->
     1 <= i <= m -> 1 <= j <= n ->
     0 <= colOfEx b j + i < Z.of_nat (length (mr b)) ->
     let res := strmm fround lowerChar (setCol_rows fround) side uplo transA
                  diag m n alpha a lda b ldb in
     fst res = Normal /\ entry (snd res) i j = fround 0%float) /\
  strmm store64 lower0x20 (setCol_rows store64) "l" "u" "n" "n" 2 1 0%float
    exA 2 exB 2
  = (Normal, realMatrix 2 [0; 0]%float).
Proof.
  split; [|split; [|split]].
  - vm_compute. reflexivity.
  - intros fround lowerChar setCol side uplo transA diag m n alpha a1 a2 lda
      b ldb H. unfold strmm. cbv zeta. rewrite H.
    destruct (negb _); [reflexivity|]. destruct (_ || _); reflexivity.
  - intros fround lowerChar side uplo transA diag m n alpha a lda b ldb i j
      Hinfo Halpha Hi Hj Hin. cbv zeta. unfold strmm. cbv zeta.
    rewrite Hinfo, Halpha.
    destruct (Z.eqb_spec m 0); [lia|]. destruct (Z.eqb_spec n 0); [lia|].
    cbn [negb Z.eqb orb fst snd]. split; [reflexivity|].
    now apply strmm_zero_loop.
  - vm_compute. reflexivity.
Qed.

(** C3: with [beta = 0], unit strides, [alpha = 1], [A = [[2]]],
    [x = [1]] and [y = [5]] the call ends with [y = [7]]: the prior [y]
    is still in the sum, where [alpha*A*x] is 2.  In general a [beta]
    other than 1 has no effect on the outcome: 0 is treated as any other
    such [beta]. *)
Theorem chbmv_beta_zero_keeps_prior_y :
  chbmv store64 "u" 1 0 (mkComplex 1 0) exH 1 exX 1 (mkComplex 0 0) exY 1
  = (Normal, complexVector 1 [7]%float [0]%float) /\
  (forall fround _uplo n k alpha a lda x incx beta1 beta2 y incy,
     betaIsOne (re beta1) (im beta1) = false ->
     betaIsOne (re beta2) (im beta2) = false ->
     chbmv fround _uplo n k alpha a lda x incx beta1 y incy
     = chbmv fround _uplo n k alpha a lda x incx beta2 y incy).
Proof.
  split; [vm_compute; reflexivity|].
  intros fround _uplo n k alpha a lda x incx beta1 beta2 y incy H1 H2.
  unfold chbmv, chbmv_run, beta_pass. now rewrite H1, H2.
Qed.

(** ** The theorems at concrete operands *)

Lemma chbmv_validation_order_witness :
  mi exH = Some [0%float] /\ vi exX = Some [0%float] /\
  vi exY = Some [0%float] /\
  chbmv store64 "U" 1 0 (mkComplex 1 0) exH 1 exX 0 (mkComplex 0 0) exY 0
  = (Throw (errWrongArg "chbmv" 8), exY).
Proof.
  split; [reflexivity|]. split; [reflexivity|]. split; [reflexivity|].
  pose proof (chbmv_validation_order store64 "U" 1 0 (mkComplex 1 0) exH 1
    exX 0 (mkComplex 0 0) exY 0 [0%float] [0%float] [0%float]
    eq_refl eq_refl eq_refl) as H.
  cbv zeta in H. apply H; try lia. left. reflexivity.
Defined.

Lemma strmm_worked_example_witness :
  fst (strmm store64 lower0x20 (setCol_rows store64) "l" "u" "n" "n" 2 1
         2%float exA 2 exB 2) = Normal /\
  entry (snd (strmm store64 lower0x20 (setCol_rows store64) "l" "u" "n" "n"
                2 1 2%float exA 2 exB 2)) 1 1 = 16%float /\
  entry (snd (strmm store64 lower0x20 (setCol_rows store64) "l" "u" "n" "n"
                2 1 2%float exA 2 exB 2)) 2 1 = 14%float.
Proof.
  pose proof (strmm_worked_example store64 lower0x20 (setCol_rows store64)
    exA exB 2 2 eq_refl eq_refl eq_refl eq_refl eq_refl eq_refl) as H.
  cbv zeta in H.
  destruct H as (H1 & H2 & H3 & _); try reflexivity; try lia.
  repeat split; assumption.
Defined.

Lemma exA_exA'_offdiag : offdiag_eq 2 exA exA'.
Proof.
  intros i j Hi Hj Hne.
  assert (Hc : (i = 1 /\ j = 2) \/ (i = 2 /\ j = 1)) by lia.
  destruct Hc as [[-> ->] | [-> ->]]; reflexivity.
Defined.

Lemma strmm_unit_diag_ignores_diagonal_witness :
  lower0x20 "U" = "u" /\ offdiag_eq 2 exA exA' /\
  strmm store64 lower0x20 (setCol_rows store64) "l" "u" "n" "U" 2 1 2%float
    exA 2 exB 2
  = strmm store64 lower0x20 (setCol_rows store64) "l" "u" "n" "U" 2 1 2%float
      exA' 2 exB 2.
Proof.
  split; [reflexivity|]. split; [exact exA_exA'_offdiag|].
  apply (strmm_unit_diag_ignores_diagonal store64 lower0x20
    (setCol_rows store64) "l" "u" "n" "U" 2 1 2%float exA exA' 2 exB 2).
  - reflexivity.
  - exact exA_exA'_offdiag.
Defined.

Lemma early_exits_keep_output_witness :
  chbmv store64 "l" 0 0 (mkComplex 1 0) exH 1 exX 1 (mkComplex 0 0) exY 1
  = (Normal, exY) /\
  chbmv store64 "l" 1 0 (mkComplex 0 0) exH 1 exX 1 (mkComplex 1 0) exY 1
  = (Normal, exY) /\
  strmm store64 lower0x20 (setCol_rows store64) "r" "l" "t" "n" 0 1 2%float
    exA 2 exB 2
  = (Normal, exB).
Proof.
  pose proof (early_exits_keep_output store64 lower0x20 (setCol_rows store64))
    as [Hc Hs].
  split; [|split].
  - apply (Hc "l" 0 0 (mkComplex 1 0) exH 1 exX 1 (mkComplex 0 0) exY 1
      [0%float] [0%float] [0%float]); try reflexivity. left. reflexivity.
  - apply (Hc "l" 1 0 (mkComplex 0 0) exH 1 exX 1 (mkComplex 1 0) exY 1
      [0%float] [0%float] [0%float]); try reflexivity.
    right. split; reflexivity.
  - apply Hs; [reflexivity | left; reflexivity].
Defined.

Lemma strmm_transA_c_as_t_witness :
  lower0x20 "c" = "c" /\ lower0x20 "t" = "t" /\
  strmm store64 lower0x20 (setCol_rows store64) "l" "u" "c" "n" 2 1 2%float
    exA 2 exB 2
  = strmm store64 lower0x20 (setCol_rows store64) "l" "u" "t" "n" 2 1 2%float
      exA 2 exB 2.
Proof.
  split; [reflexivity|]. split; [reflexivity|].
  apply (strmm_transA_c_as_t store64 lower0x20 (setCol_rows store64)
    "c" "t" "l" "u" "n" 2 1 2%float exA 2 exB 2); reflexivity.
Defined.

(** ** When chbmv completes *)

Lemma chbmv_info_zero_iff (ul : string) (n k lda incx incy : Z) :
  chbmv_info ul n k lda incx incy = 0 <->
  (ul = "u" \/ ul = "l") /\ 0 <= n /\ 0 <= k /\ k + 1 <= lda /\
  incx <> 0 /\ incy <> 0.
Proof.
  unfold chbmv_info.
  destruct (String.eqb_spec ul "u") as [Eu | Eu];
    destruct (String.eqb_spec ul "l") as [El | El]; cbn [negb andb];
    destruct (Z.ltb_spec n 0); destruct (Z.ltb_spec k 0);
    destruct (Z.ltb_spec lda (k + 1)); destruct (Z.eqb_spec incx 0);
    destruct (Z.eqb_spec incy 0);
    split; intros Hz; try discriminate Hz; try lia;
    try (repeat split; try lia; auto; fail);
    try (destruct Hz as ([? | ?] & ?); try contradiction; lia).
Qed.

(** [chbmv] completes normally exactly when the three imaginary buffers
    are present and the six checks pass; a missing imaginary buffer is
    thrown before any check, [a.i] first, then [x.i], then [y.i], with [y]
    as it was. *)
Theorem chbmv_normal_iff (fround : float -> float) (_uplo : string)
    (n k : Z) (alpha : Complex) (a : Matrix) (lda : Z) (x : FortranArr)
    (incx : Z) (beta : Complex) (y : FortranArr) (incy : Z) :
  let ul := lower0x20 _uplo in
  let res := chbmv fround _uplo n k alpha a lda x incx beta y incy in
  (fst res = Normal <->
     mi a <> None /\ vi x <> None /\ vi y <> None /\
     (ul = "u" \/ ul = "l") /\ 0 <= n /\ 0 <= k /\ k + 1 <= lda /\
     incx <> 0 /\ incy <> 0) /\
  (mi a = None -> res = (Throw (errMissingIm "a.i"), y)) /\
  (mi a <> None -> vi x = None -> res = (Throw (errMissingIm "x.i"), y)) /\
  (mi a <> None -> vi x <> None -> vi y = None ->
     res = (Throw (errMissingIm "y.i"), y)).
Proof.
  cbv zeta. unfold chbmv.
  destruct (mi a) as [ai|]; [|split; [split|]].
  2: { discriminate. }
  2: { intros (H & _). congruence. }
  2: { repeat split; congruence. }
  destruct (vi x) as [xi|]; [|split; [split|]].
  2: { discriminate. }
  2: { intros (_ & H & _). congruence. }
  2: { repeat split; congruence. }
  destruct (vi y) as [yi|]; [|split; [split|]].
  2: { discriminate. }
  2: { intros (_ & _ & H & _). congruence. }
  2: { repeat split; congruence. }
  cbv zeta. split; [|repeat split; congruence].
  destruct (Z.eqb_spec (chbmv_info (lower0x20 _uplo) n k lda incx incy) 0)
    as [Hinfo | Hinfo]; cbn [negb].
  - destruct chbmv_run. cbn [fst]. split; [intros _|reflexivity].
    apply chbmv_info_zero_iff in Hinfo. repeat split; try congruence; tauto.
  - cbn [fst]. split; [discriminate|].
    intros (_ & _ & _ & H). apply chbmv_info_zero_iff in H. contradiction.
Qed.

(** ** The uplo code of chbmv *)

Ltac ascii_cases c :=
  destruct c as [b0 b1 b2 b3 b4 b5 b6 b7];
  destruct b0, b1, b2, b3, b4, b5, b6, b7.

Lemma lower0x20_u (s : string) :
  lower0x20 s = "u" <->
  exists rest, s = String "u" rest \/ s = String "U" rest.
Proof.
  destruct s as [|c rest].
  - split; [discriminate | intros [r [H | H]]; discriminate H].
  - ascii_cases c; cbv [lower0x20 charCodeAt0 fromCharCode];
      (split;
       [ intros H; first [discriminate H | exists rest; auto]
       | intros [r [H | H]]; first [discriminate H | reflexivity] ]).
Qed.

Lemma lower0x20_l (s : string) :
  lower0x20 s = "l" <->
  exists rest, s = String "l" rest \/ s = String "L" rest.
Proof.
  destruct s as [|c rest].
  - split; [discriminate | intros [r [H | H]]; discriminate H].
  - ascii_cases c; cbv [lower0x20 charCodeAt0 fromCharCode];
      (split;
       [ intros H; first [discriminate H | exists rest; auto]
       | intros [r [H | H]]; first [discriminate H | reflexivity] ]).
Qed.

Lemma uplo_letter_iff (s : string) :
  uplo_letter s <-> lower0x20 s = "u" \/ lower0x20 s = "l".
Proof.
  rewrite lower0x20_u, lower0x20_l. unfold uplo_letter. split.
  - intros (c & rest & -> & [-> | [-> | [-> | ->]]]);
      [left | left | right | right]; exists rest; auto.
  - intros [[rest [-> | ->]] | [rest [-> | ->]]];
      eexists _, rest; (split; [reflexivity | auto]).
Qed.

Lemma chbmv_info_one (ul : string) (n k lda incx incy : Z) :
  chbmv_info ul n k lda incx incy = 1 <-> ul <> "u" /\ ul <> "l".
Proof.
  unfold chbmv_info.
  destruct (String.eqb_spec ul "u") as [Eu | Eu];
    destruct (String.eqb_spec ul "l") as [El | El]; cbn [negb andb];
    repeat match goal with
    | |- context [if ?c then _ else _] => destruct c
    end;
    split; intros Hz; try discriminate Hz; try tauto; try (split; assumption).
Qed.

(** [chbmv] looks at the first character of uplo only, without regard to
    case: a string that starts with [u] or [U] is treated as ['u'], one
    that starts with [l] or [L] as ['l'], and position 1 is thrown
    exactly for the other strings, the empty one included. *)
Theorem chbmv_uplo_first_char (fround : float -> float) (_uplo : string)
    (n k : Z) (alpha : Complex) (a : Matrix) (lda : Z) (x : FortranArr)
    (incx : Z) (beta : Complex) (y : FortranArr) (incy : Z) :
  let call u := chbmv fround u n k alpha a lda x incx beta y incy in
  ((exists rest, _uplo = String "u" rest \/ _uplo = String "U" rest) ->
     call _uplo = call "u") /\
  ((exists rest, _uplo = String "l" rest \/ _uplo = String "L" rest) ->
     call _uplo = call "l") /\
  (mi a <> None -> vi x <> None -> vi y <> None ->
     (call _uplo = (Throw (errWrongArg "chbmv" 1), y) <->
      ~ uplo_letter _uplo)).
Proof.
  cbv zeta. split; [|split].
  - intros H. apply lower0x20_u in H. unfold chbmv. now rewrite H.
  - intros H. apply lower0x20_l in H. unfold chbmv. now rewrite H.
  - intros Ha Hx Hy.
    destruct (mi a) as [ai|] eqn:Ea; [|congruence].
    destruct (vi x) as [xi|] eqn:Ex; [|congruence].
    destruct (vi y) as [yi|] eqn:Ey; [|congruence].
    rewrite uplo_letter_iff. split.
    + intros Hthrow.
      destruct (Z.eq_dec (chbmv_info (lower0x20 _uplo) n k lda incx incy) 0)
        as [E0 | E0].
      * rewrite (chbmv_passes fround _ _ _ _ _ _ _ _ _ _ _ _ _ _ Ea Ex Ey E0)
          in Hthrow. discriminate Hthrow.
      * rewrite (chbmv_throws fround _ _ _ _ _ _ _ _ _ _ _ _ _ _ _ Ea Ex Ey
                   eq_refl E0) in Hthrow.
        injection Hthrow as Hone. apply chbmv_info_one in Hone. tauto.
    + intros Hbad.
      apply (chbmv_throws fround _ _ _ _ _ _ _ _ _ _ _ _ _ _ _ Ea Ex Ey);
        [|lia].
      apply chbmv_info_one. tauto.
Qed.

(** ** Properties kept by a loop *)

Section Keep_facts.
Context {S : Type}.

Lemma for_up_keeps (P : S -> Prop) (lo hi : Z) (body : Z -> S -> S) (s : S) :
  P s ->
  (forall j s', lo <= j <= hi -> P s' -> P (body j s')) ->
  P (for_up lo hi body s).
Proof.
  intros H0 Hstep.
  apply (for_up_inv (fun _ => P) lo hi body s H0). exact Hstep.
Qed.

Lemma for_down_keeps (P : S -> Prop) (hi lo : Z) (body : Z -> S -> S) (s : S) :
  P s ->
  (forall j s', lo <= j <= hi -> P s' -> P (body j s')) ->
  P (for_down hi lo body s).
Proof.
  intros H0 Hstep. unfold for_down.
  apply (for_from_inv (fun _ => P)); [exact H0|].
  intros t s' Ht HP. apply Hstep; [lia | exact HP].
Qed.

End Keep_facts.

(** With [alpha == 0] the outcome of [chbmv] does not depend on the
    contents of [A] and [x] (nor on their accessors and bases), as long
    as their imaginary buffers are present. *)
Theorem chbmv_alpha_zero_ignores_A_x (fround : float -> float)
    (_uplo : string) (n k : Z) (alpha : Complex) (a1 a2 : Matrix) (lda : Z)
    (x1 x2 : FortranArr) (incx : Z) (beta : Complex) (y : FortranArr)
    (incy : Z) :
  alphaIsZero (re alpha) (im alpha) = true ->
  mi a1 <> None -> mi a2 <> None -> vi x1 <> None -> vi x2 <> None ->
  chbmv fround _uplo n k alpha a1 lda x1 incx beta y incy
  = chbmv fround _uplo n k alpha a2 lda x2 incx beta y incy.
Proof.
  intros Hz Ha1 Ha2 Hx1 Hx2. unfold chbmv.
  destruct (mi a1); [|congruence]. destruct (mi a2); [|congruence].
  destruct (vi x1); [|congruence]. destruct (vi x2); [|congruence].
  destruct (vi y); [|reflexivity]. cbv zeta.
  destruct (negb _); [reflexivity|].
  unfold chbmv_run. rewrite Hz. cbv zeta.
  destruct (_ || _); [reflexivity|].
  destruct (beta_pass _ _ _ _ _ _ _ _). reflexivity.
Qed.

(** ** What chbmv reads of A *)

Section Band_reads.
Variable fround : float -> float.
Variables (n k : Z) (AlphaRe AlphaIm BetaRe BetaIm : float).
Variables (ar1 ai1 ar2 ai2 : fpArray) (ca1 ca2 : Z -> Z).
Variables (xr xi : fpArray) (xbase ybase incx incy : Z).
Variable upper : bool.
Hypothesis Hk : 0 <= k.
Hypothesis Hband : forall j r, 1 <= j <= n -> 1 <= r <= k + 1 ->
  get ar1 (ca1 j + r) = get ar2 (ca2 j + r) /\
  ((if upper then r <= k else 2 <= r) ->
   get ai1 (ca1 j + r) = get ai2 (ca2 j + r)).

Lemma inner_step_same (t1r t1i : float) (x1 x2 : Z) (s : inner_st) :
  get ar1 x1 = get ar2 x2 -> get ai1 x1 = get ai2 x2 ->
  inner_step fround ar1 ai1 xr xi t1r t1i x1 s
  = inner_step fround ar2 ai2 xr xi t1r t1i x2 s.
Proof. intros Hr Hi. unfold inner_step. now rewrite Hr, Hi. Qed.

Ltac same_inner_loop :=
  match goal with
  | |- ?lhs = ?rhs =>
    match lhs with
    | context [for_up ?lo ?hi ?f1 ?s0] =>
      match rhs with
      | context [for_up lo hi ?f2 s0] => rewrite (for_up_ext lo hi f1 f2 s0)
      end
    end
  end.

Lemma upper_col_same (j : Z) (o : outer_st) :
  upper = true -> 1 <= j <= n ->
  upper_col fround k AlphaRe AlphaIm ar1 ai1 ca1 xr xi xbase ybase incx incy j o
  = upper_col fround k AlphaRe AlphaIm ar2 ai2 ca2 xr xi xbase ybase incx incy j o.
Proof.
  intros Hu Hj. unfold upper_col. cbv zeta.
  destruct (Hband j (k + 1)) as [Hd _]; [lia | lia |]. rewrite Hd.
  same_inner_loop; [reflexivity|].
  intros i s' Hi. cbv beta.
  rewrite (inner_step_same _ _ (ca1 j + (k + 1 - j) + i)
             (ca2 j + (k + 1 - j) + i)); [reflexivity | |];
    replace (ca1 j + (k + 1 - j) + i) with (ca1 j + (k + 1 - j + i)) by lia;
    replace (ca2 j + (k + 1 - j) + i) with (ca2 j + (k + 1 - j + i)) by lia;
    destruct (Hband j (k + 1 - j + i)) as [Hr Him]; try lia;
    [exact Hr | apply Him; rewrite Hu; lia].
Qed.

Lemma lower_col_same (j : Z) (o : outer_st) :
  upper = false -> 1 <= j <= n ->
  lower_col fround n k AlphaRe AlphaIm ar1 ai1 ca1 xr xi incx incy j o
  = lower_col fround n k AlphaRe AlphaIm ar2 ai2 ca2 xr xi incx incy j o.
Proof.
  intros Hu Hj. unfold lower_col. cbv zeta.
  destruct (Hband j 1) as [Hd _]; [lia | lia |]. rewrite Hd.
  same_inner_loop; [reflexivity|].
  intros i s' Hi. cbv beta.
  rewrite (inner_step_same _ _ (ca1 j + (1 - j) + i)
             (ca2 j + (1 - j) + i)); [reflexivity | |];
    replace (ca1 j + (1 - j) + i) with (ca1 j + (1 - j + i)) by lia;
    replace (ca2 j + (1 - j) + i) with (ca2 j + (1 - j + i)) by lia;
    destruct (Hband j (1 - j + i)) as [Hr Him]; try lia;
    [exact Hr | apply Him; rewrite Hu; lia].
Qed.

Lemma chbmv_run_same (ul : string) (yr yi : fpArray) :
  upper = String.eqb ul "u" ->
  chbmv_run fround n k AlphaRe AlphaIm BetaRe BetaIm ar1 ai1 ca1
    xr xi xbase ybase incx incy ul yr yi
  = chbmv_run fround n k AlphaRe AlphaIm BetaRe BetaIm ar2 ai2 ca2
      xr xi xbase ybase incx incy ul yr yi.
Proof.
  intros Hu. unfold chbmv_run. cbv zeta.
  destruct (_ || _); [reflexivity|].
  destruct (beta_pass _ _ _ _ _ _ _ _) as [yr1 yi1].
  destruct (alphaIsZero _ _); [reflexivity|].
  same_inner_loop; [reflexivity|].
  intros j o Hj. destruct (String.eqb ul "u").
  - now apply upper_col_same.
  - now apply lower_col_same.
Qed.

End Band_reads.

(** [chbmv] reads [A] in the band only, and never the imaginary part of
    its diagonal: two matrices that agree, in columns [1..n], on the real
    parts of rows [1..k+1] and on the imaginary parts of the off-diagonal
    rows give the same outcome. *)
Theorem chbmv_reads_band_only (fround : float -> float) (_uplo : string)
    (n k : Z) (alpha : Complex) (a1 a2 : Matrix) (ai1 ai2 : fpArray)
    (lda : Z) (x : FortranArr) (incx : Z) (beta : Complex) (y : FortranArr)
    (incy : Z) :
  mi a1 = Some ai1 -> mi a2 = Some ai2 ->
  band_eq (String.eqb (lower0x20 _uplo) "u") n k a1 a2 ai1 ai2 ->
  chbmv fround _uplo n k alpha a1 lda x incx beta y incy
  = chbmv fround _uplo n k alpha a2 lda x incx beta y incy.
Proof.
  intros Ha1 Ha2 Hband. unfold chbmv. rewrite Ha1, Ha2.
  destruct (vi x) as [xi|]; [|reflexivity].
  destruct (vi y) as [yi|]; [|reflexivity]. cbv zeta.
  destruct (Z.eqb_spec (chbmv_info (lower0x20 _uplo) n k lda incx incy) 0)
    as [Hinfo | _]; [|reflexivity].
  cbn [negb]. apply chbmv_info_zero_k in Hinfo.
  now rewrite (chbmv_run_same fround n k (re alpha) (im alpha) (re beta)
    (im beta) (mr a1) ai1 (mr a2) ai2 (colOfEx a1) (colOfEx a2) (vr x) xi
    (base x) (base y) incx incy _ Hinfo Hband (lower0x20 _uplo) (vr y) yi
    eq_refl).
Qed.

(** ** What strmm reads of A *)

Section Triangle_reads.
Variable fround : float -> float.
Variables (nounit : bool) (m n : Z) (alpha : float).
Variables (ar1 ar2 : fpArray) (ca1 ca2 cb : Z -> Z).

Section Upper_left.
Hypothesis Hup : forall i j, 1 <= i -> i <= j -> j <= m ->
  get ar1 (ca1 j + i) = get ar2 (ca2 j + i).

Lemma left_n_upper_same (br : fpArray) :
  left_n_upper fround nounit m n alpha ar1 ca1 cb br
  = left_n_upper fround nounit m n alpha ar2 ca2 cb br.
Proof. unfold left_n_upper. same_loops Hup. Qed.

Lemma left_t_upper_same (br : fpArray) :
  left_t_upper fround nounit m n alpha ar1 ca1 cb br
  = left_t_upper fround nounit m n alpha ar2 ca2 cb br.
Proof. unfold left_t_upper. same_loops Hup. Qed.

End Upper_left.

Section Lower_left.
Hypothesis Hlo : forall i j, 1 <= j -> j <= i -> i <= m ->
  get ar1 (ca1 j + i) = get ar2 (ca2 j + i).

Lemma left_n_lower_same (br : fpArray) :
  left_n_lower fround nounit m n alpha ar1 ca1 cb br
  = left_n_lower fround nounit m n alpha ar2 ca2 cb br.
Proof. unfold left_n_lower. same_loops Hlo. Qed.

Lemma left_t_lower_same (br : fpArray) :
  left_t_lower fround nounit m n alpha ar1 ca1 cb br
  = left_t_lower fround nounit m n alpha ar2 ca2 cb br.
Proof. unfold left_t_lower. same_loops Hlo. Qed.

End Lower_left.

Section Upper_right.
Hypothesis Hup : forall i j, 1 <= i -> i <= j -> j <= n ->
  get ar1 (ca1 j + i) = get ar2 (ca2 j + i).

Lemma right_n_upper_same (br : fpArray) :
  right_n_upper fround nounit m n alpha ar1 ca1 cb br
  = right_n_upper fround nounit m n alpha ar2 ca2 cb br.
Proof. unfold right_n_upper. same_loops Hup. Qed.

Lemma right_t_upper_same (br : fpArray) :
  right_t_upper fround nounit m n alpha ar1 ca1 cb br
  = right_t_upper fround nounit m n alpha ar2 ca2 cb br.
Proof. unfold right_t_upper. same_loops Hup. Qed.

End Upper_right.

Section Lower_right.
Hypothesis Hlo : forall i j, 1 <= j -> j <= i -> i <= n ->
  get ar1 (ca1 j + i) = get ar2 (ca2 j + i).

Lemma right_n_lower_same (br : fpArray) :
  right_n_lower fround nounit m n alpha ar1 ca1 cb br
  = right_n_lower fround nounit m n alpha ar2 ca2 cb br.
Proof. unfold right_n_lower. same_loops Hlo. Qed.

Lemma right_t_lower_same (br : fpArray) :
  right_t_lower fround nounit m n alpha ar1 ca1 cb br
  = right_t_lower fround nounit m n alpha ar2 ca2 cb br.
Proof. unfold right_t_lower. same_loops Hlo. Qed.

End Lower_right.
End Triangle_reads.

(** [strmm] reads the referenced triangle of [A] only: with an uplo that
    normalises to ['u'] two matrices that agree on and above the
    diagonal give the same outcome, and otherwise two that agree on and
    below it, in all eight branches and for either diag. *)
Theorem strmm_reads_triangle_only (fround : float -> float)
    (lowerChar : string -> string)
    (setCol : Matrix -> Z -> Z -> Z -> float -> Matrix)
    (side uplo transA diag : string) (m n : Z) (alpha : float)
    (a1 a2 : Matrix) (lda : Z) (b : Matrix) (ldb : Z) :
  triangle_eq (String.eqb (lowerChar uplo) "u")
    (if String.eqb (lowerChar side) "l" then m else n) a1 a2 ->
  strmm fround lowerChar setCol side uplo transA diag m n alpha a1 lda b ldb
  = strmm fround lowerChar setCol side uplo transA diag m n alpha a2 lda b ldb.
Proof.
  intros Htri. unfold triangle_eq, entry in Htri.
  unfold strmm. cbv zeta.
  destruct (negb _); [reflexivity|].
  destruct (_ || _); [reflexivity|].
  destruct (alpha =? 0)%float; [reflexivity|].
  destruct (String.eqb (lowerChar side) "l");
    destruct (String.eqb (lowerChar transA) "n");
    destruct (String.eqb (lowerChar uplo) "u");
    do 2 f_equal;
    first
      [ apply left_n_upper_same | apply left_n_lower_same
      | apply left_t_upper_same | apply left_t_lower_same
      | apply right_n_upper_same | apply right_n_lower_same
      | apply right_t_upper_same | apply right_t_lower_same ];
    intros i j ? ? ?; apply Htri; lia.
Qed.

(** ** What strmm writes *)

Section Block_frame.
Variable fround : float -> float.
Variables (nounit : bool) (m n : Z) (alpha : float).
Variables (ar : fpArray) (ca cb : Z -> Z).
Variable br0 : fpArray.

Lemma in_block_intro (i j : Z) :
  1 <= i <= m -> 1 <= j <= n -> in_block cb m n (cb j + i).
Proof. intros Hi Hj. exists i, j. repeat split; lia. Qed.

Lemma block_kept_refl : block_kept cb m n br0 br0.
Proof. split; [reflexivity | intros; reflexivity]. Qed.

Lemma block_kept_set (br : fpArray) (idx : Z) (v : float) :
  block_kept cb m n br0 br -> in_block cb m n idx ->
  block_kept cb m n br0 (set fround br idx v).
Proof.
  intros [Hl Hf] Hidx. split; [now rewrite length_set|].
  intros p Hp. rewrite get_set_ne; [now apply Hf|].
  intros ->. contradiction.
Qed.

Ltac keep_block :=
  repeat first
    [ assumption
    | progress cbv zeta
    | apply (for_up_keeps (block_kept cb m n br0)); [| intros ? ? ? ?]
    | apply (for_down_keeps (block_kept cb m n br0)); [| intros ? ? ? ?]
    | apply block_kept_set; [| apply in_block_intro; lia]
    | match goal with
      | |- block_kept _ _ _ _ (if ?c then _ else _) => destruct c
      end ].

Lemma left_n_upper_block (br : fpArray) :
  block_kept cb m n br0 br ->
  block_kept cb m n br0 (left_n_upper fround nounit m n alpha ar ca cb br).
Proof. intros H. unfold left_n_upper. keep_block. Qed.

Lemma left_n_lower_block (br : fpArray) :
  block_kept cb m n br0 br ->
  block_kept cb m n br0 (left_n_lower fround nounit m n alpha ar ca cb br).
Proof. intros H. unfold left_n_lower. keep_block. Qed.

Lemma left_t_upper_block (br : fpArray) :
  block_kept cb m n br0 br ->
  block_kept cb m n br0 (left_t_upper fround nounit m n alpha ar ca cb br).
Proof. intros H. unfold left_t_upper. keep_block. Qed.

Lemma left_t_lower_block (br : fpArray) :
  block_kept cb m n br0 br ->
  block_kept cb m n br0 (left_t_lower fround nounit m n alpha ar ca cb br).
Proof. intros H. unfold left_t_lower. keep_block. Qed.

Lemma right_n_upper_block (br : fpArray) :
  block_kept cb m n br0 br ->
  block_kept cb m n br0 (right_n_upper fround nounit m n alpha ar ca cb br).
Proof. intros H. unfold right_n_upper, scale_col, axpy_col. keep_block. Qed.

Lemma right_n_lower_block (br : fpArray) :
  block_kept cb m n br0 br ->
  block_kept cb m n br0 (right_n_lower fround nounit m n alpha ar ca cb br).
Proof. intros H. unfold right_n_lower, scale_col, axpy_col. keep_block. Qed.

Lemma right_t_upper_block (br : fpArray) :
  block_kept cb m n br0 br ->
  block_kept cb m n br0 (right_t_upper fround nounit m n alpha ar ca cb br).
Proof. intros H. unfold right_t_upper, scale_col_l, axpy_col. keep_block. Qed.

Lemma right_t_lower_block (br : fpArray) :
  block_kept cb m n br0 br ->
  block_kept cb m n br0 (right_t_lower fround nounit m n alpha ar ca cb br).
Proof. intros H. unfold right_t_lower, scale_col, axpy_col. keep_block. Qed.

End Block_frame.

(** With [alpha] other than 0, [strmm] writes inside the [m] by [n] block
    of [B] only: the accessor, the imaginary buffer and the length of the
    real buffer are as before, and so is every element whose index is
    not [colOfEx j + i] for some [1 <= i <= m], [1 <= j <= n]. *)
Theorem strmm_writes_block_only (fround : float -> float)
    (lowerChar : string -> string)
    (setCol : Matrix -> Z -> Z -> Z -> float -> Matrix)
    (side uplo transA diag : string) (m n : Z) (alpha : float)
    (a : Matrix) (lda : Z) (b : Matrix) (ldb : Z) :
  (alpha =? 0)%float = false ->
  let b' := snd (strmm fround lowerChar setCol side uplo transA diag m n
                   alpha a lda b ldb) in
  colOfEx b' = colOfEx b /\ mi b' = mi b /\
  block_kept (colOfEx b) m n (mr b) (mr b').
Proof.
  intros Halpha. cbv zeta. unfold strmm. cbv zeta. rewrite Halpha.
  pose proof (block_kept_refl m n (colOfEx b) (mr b)) as Hrefl.
  destruct (negb _); [repeat split; apply Hrefl|].
  destruct (_ || _); [repeat split; apply Hrefl|].
  destruct (String.eqb (lowerChar side) "l");
    destruct (String.eqb (lowerChar transA) "n");
    destruct (String.eqb (lowerChar uplo) "u");
    cbn [snd with_mr colOfEx mi mr];
    (split; [reflexivity|]; split; [reflexivity|]);
    auto using left_n_upper_block, left_n_lower_block, left_t_upper_block,
      left_t_lower_block, right_n_upper_block, right_n_lower_block,
      right_t_upper_block, right_t_lower_block.
Qed.

(** ** Fast paths of strmm *)

Section Fast_paths.
Variable fround : float -> float.
Variables (nounit : bool) (m n : Z) (alpha : float).
Variables (ar : fpArray) (ca cb : Z -> Z).
Variable br0 : fpArray.

Section Zero_B.
Hypothesis Hzero : forall i j, 1 <= i <= m -> 1 <= j <= n ->
  (get br0 (cb j + i) =? 0)%float = true.

Lemma left_n_upper_zero :
  left_n_upper fround nounit m n alpha ar ca cb br0 = br0.
Proof.
  unfold left_n_upper.
  apply (for_up_keeps (fun br => br = br0)); [reflexivity|].
  intros j br Hj ->.
  apply (for_up_keeps (fun br => br = br0)); [reflexivity|].
  intros k br Hk ->. cbv zeta. now rewrite Hzero by lia.
Qed.

Lemma left_n_lower_zero :
  left_n_lower fround nounit m n alpha ar ca cb br0 = br0.
Proof.
  unfold left_n_lower.
  apply (for_up_keeps (fun br => br = br0)); [reflexivity|].
  intros j br Hj ->.
  apply (for_down_keeps (fun br => br = br0)); [reflexivity|].
  intros k br Hk ->. cbv zeta. now rewrite Hzero by lia.
Qed.

End Zero_B.

Section Identity_A.
Hypothesis Hone : (alpha =? 1)%float = true.
Hypothesis Hunit : nounit = false.

Lemma right_t_upper_identity :
  (forall i j, 1 <= i -> i < j -> j <= n -> (get ar (ca j + i) =? 0)%float = true) ->
  right_t_upper fround nounit m n alpha ar ca cb br0 = br0.
Proof.
  intros Hz. unfold right_t_upper. rewrite Hunit.
  apply (for_up_keeps (fun br => br = br0)); [reflexivity|].
  intros k br Hk ->. cbv zeta. rewrite Hone. cbn [negb].
  apply (for_up_keeps (fun br => br = br0)); [reflexivity|].
  intros j br Hj ->. now rewrite Hz by lia.
Qed.

Lemma right_t_lower_identity :
  (forall i j, 1 <= j -> j < i -> i <= n -> (get ar (ca j + i) =? 0)%float = true) ->
  right_t_lower fround nounit m n alpha ar ca cb br0 = br0.
Proof.
  intros Hz. unfold right_t_lower. rewrite Hunit.
  apply (for_down_keeps (fun br => br = br0)); [reflexivity|].
  intros k br Hk ->. cbv zeta. rewrite Hone. cbn [negb].
  apply (for_up_keeps (fun br => br = br0)); [reflexivity|].
  intros j br Hj ->. now rewrite Hz by lia.
Qed.

End Identity_A.
End Fast_paths.

Lemma with_mr_same (b : Matrix) : with_mr b (mr b) = b.
Proof. now destruct b. Qed.

(** The zero skip of the left-side, no-transpose branches: on a valid
    call with [alpha] other than 0 and a [B] whose block elements all
    test equal to zero, [B] is left exactly as it was (a negative zero
    stays one), whatever [A] holds. *)
Theorem strmm_left_n_zero_B_unchanged (fround : float -> float)
    (lowerChar : string -> string)
    (setCol : Matrix -> Z -> Z -> Z -> float -> Matrix)
    (side uplo transA diag : string) (m n : Z) (alpha : float)
    (a : Matrix) (lda : Z) (b : Matrix) (ldb : Z) :
  lowerChar side = "l" -> lowerChar transA = "n" ->
  strmm_info (lowerChar side) (lowerChar uplo) (lowerChar transA)
    (lowerChar diag) m n m lda ldb = 0 ->
  (alpha =? 0)%float = false ->
  block_zero m n b ->
  strmm fround lowerChar setCol side uplo transA diag m n alpha a lda b ldb
  = (Normal, b).
Proof.
  intros Hs Ht Hinfo Halpha Hzero. unfold block_zero, entry in Hzero.
  unfold strmm. cbv zeta. rewrite Hs, Ht in *.
  change (String.eqb "l" "l") with true. change (String.eqb "n" "n") with true.
  cbv iota. rewrite Hinfo, Halpha. cbn [negb Z.eqb].
  destruct (_ || _); [reflexivity|].
  destruct (String.eqb (lowerChar uplo) "u").
  - rewrite left_n_upper_zero by assumption. now rewrite with_mr_same.
  - rewrite left_n_lower_zero by assumption. now rewrite with_mr_same.
Qed.

(** The fast path of the right-side, transposed branches: on a valid
    call with [alpha == 1], unit diagonal and zeros in the referenced
    strict triangle of [A], no element of [B] is stored at all: [B] is
    left exactly as it was. *)
Theorem strmm_right_t_identity (fround : float -> float)
    (lowerChar : string -> string)
    (setCol : Matrix -> Z -> Z -> Z -> float -> Matrix)
    (side uplo transA diag : string) (m n : Z) (alpha : float)
    (a : Matrix) (lda : Z) (b : Matrix) (ldb : Z) :
  lowerChar side = "r" -> lowerChar transA <> "n" -> lowerChar diag = "u" ->
  strmm_info (lowerChar side) (lowerChar uplo) (lowerChar transA)
    (lowerChar diag) m n n lda ldb = 0 ->
  (alpha =? 1)%float = true ->
  strict_triangle_zero (String.eqb (lowerChar uplo) "u") n a ->
  strmm fround lowerChar setCol side uplo transA diag m n alpha a lda b ldb
  = (Normal, b).
Proof.
  intros Hs Ht Hd Hinfo Hone Hz. unfold strict_triangle_zero, entry in Hz.
  unfold strmm. cbv zeta. rewrite Hs, Hd in *.
  change (String.eqb "r" "l") with false. change (String.eqb "u" "n") with false.
  cbv iota. rewrite Hinfo, (one_is_not_zero _ Hone). cbn [negb Z.eqb].
  destruct (_ || _); [reflexivity|].
  destruct (String.eqb_spec (lowerChar transA) "n") as [E | _];
    [contradiction|].
  destruct (String.eqb (lowerChar uplo) "u").
  - rewrite right_t_upper_identity; [now rewrite with_mr_same | | |];
      try assumption; try reflexivity.
    intros i j ? ? ?. apply Hz; lia.
  - rewrite right_t_lower_identity; [now rewrite with_mr_same | | |];
      try assumption; try reflexivity.
    intros i j ? ? ?. apply Hz; lia.
Qed.

(** ** The further theorems at concrete operands *)

Lemma chbmv_alpha_zero_ignores_A_x_witness :
  alphaIsZero 0 0 = true /\
  chbmv store64 "u" 1 0 (mkComplex 0 0) exH 1 exX 1 (mkComplex 2 0) exY 1
  = chbmv store64 "u" 1 0 (mkComplex 0 0) exH' 1 exX' 1 (mkComplex 2 0) exY 1.
Proof.
  split; [reflexivity|].
  apply (chbmv_alpha_zero_ignores_A_x store64 "u" 1 0 (mkComplex 0 0)
    exH exH' 1 exX exX' 1 (mkComplex 2 0) exY 1);
    [reflexivity | discriminate | discriminate | discriminate | discriminate].
Defined.

Lemma exH_exH'_band : band_eq true 1 0 exH exH' [0%float] [5%float].
Proof.
  intros j r Hj Hr.
  assert (Hc : j = 1 /\ r = 1) by lia. destruct Hc as [-> ->].
  split; [reflexivity | intros H; lia].
Defined.

Lemma chbmv_reads_band_only_witness :
  band_eq true 1 0 exH exH' [0%float] [5%float] /\
  chbmv store64 "U" 1 0 (mkComplex 1 0) exH 1 exX 1 (mkComplex 2 0) exY 1
  = chbmv store64 "U" 1 0 (mkComplex 1 0) exH' 1 exX 1 (mkComplex 2 0) exY 1.
Proof.
  split; [exact exH_exH'_band|].
  apply (chbmv_reads_band_only store64 "U" 1 0 (mkComplex 1 0) exH exH'
    [0%float] [5%float] 1 exX 1 (mkComplex 2 0) exY 1);
    [reflexivity | reflexivity | exact exH_exH'_band].
Defined.

Lemma exA_exL_upper : triangle_eq true 2 exA exL.
Proof.
  intros i j Hi Hj Hij.
  assert (Hc : (i = 1 /\ j = 1) \/ (i = 1 /\ j = 2) \/ (i = 2 /\ j = 2))
    by lia.
  destruct Hc as [[-> ->] | [[-> ->] | [-> ->]]]; reflexivity.
Defined.

Lemma strmm_reads_triangle_only_witness :
  triangle_eq true 2 exA exL /\
  strmm store64 lower0x20 (setCol_rows store64) "l" "u" "t" "n" 2 1 2%float
    exA 2 exB 2
  = strmm store64 lower0x20 (setCol_rows store64) "l" "u" "t" "n" 2 1 2%float
      exL 2 exB 2.
Proof.
  split; [exact exA_exL_upper|].
  apply (strmm_reads_triangle_only store64 lower0x20 (setCol_rows store64)
    "l" "u" "t" "n" 2 1 2%float exA exL 2 exB 2).
  exact exA_exL_upper.
Defined.

Lemma strmm_writes_block_only_witness :
  (2 =? 0)%float = false /\
  block_kept (colOfEx exB) 2 1 (mr exB)
    (mr (snd (strmm store64 lower0x20 (setCol_rows store64) "l" "u" "n" "n"
                2 1 2%float exA 2 exB 2))).
Proof.
  split; [reflexivity|].
  pose proof (strmm_writes_block_only store64 lower0x20 (setCol_rows store64)
    "l" "u" "n" "n" 2 1 2%float exA 2 exB 2 eq_refl) as H.
  cbv zeta in H. apply H.
Defined.

Lemma exB0_zero : block_zero 2 1 exB0.
Proof.
  intros i j Hi Hj.
  assert (Hc : (i = 1 \/ i = 2) /\ j = 1) by lia.
  destruct Hc as [[-> | ->] ->]; reflexivity.
Defined.

Lemma strmm_left_n_zero_B_unchanged_witness :
  block_zero 2 1 exB0 /\
  strmm store64 lower0x20 (setCol_rows store64) "L" "u" "N" "n" 2 1 2%float
    exA 2 exB0 2
  = (Normal, exB0).
Proof.
  split; [exact exB0_zero|].
  apply (strmm_left_n_zero_B_unchanged store64 lower0x20
    (setCol_rows store64) "L" "u" "N" "n" 2 1 2%float exA 2 exB0 2);
    [reflexivity | reflexivity | reflexivity | reflexivity | exact exB0_zero].
Defined.

Lemma exD_strict_upper_zero : strict_triangle_zero true 2 exD.
Proof.
  intros i j Hi Hj Hij.
  assert (Hc : i = 1 /\ j = 2) by lia. destruct Hc as [-> ->]. reflexivity.
Defined.

Lemma strmm_right_t_identity_witness :
  strict_triangle_zero true 2 exD /\
  strmm store64 lower0x20 (setCol_rows store64) "r" "u" "t" "u" 1 2 1%float
    exD 2 exBrow 1
  = (Normal, exBrow).
Proof.
  split; [exact exD_strict_upper_zero|].
  apply (strmm_right_t_identity store64 lower0x20 (setCol_rows store64)
    "r" "u" "t" "u" 1 2 1%float exD 2 exBrow 1);
    [reflexivity | discriminate | reflexivity | reflexivity | reflexivity
    | exact exD_strict_upper_zero].
Defined.

(** ** What chbmv reads of x *)

Section Ext_inv.
Context {S : Type}.

Lemma for_from_ext_inv (P : nat -> S -> Prop) (cnt : nat) (step i : Z)
    (f g : Z -> S -> S) (s : S) :
  P 0%nat s ->
  (forall t s', (t < cnt)%nat -> P t s' ->
     f (i + Z.of_nat t * step) s' = g (i + Z.of_nat t * step) s' /\
     P (Datatypes.S t) (f (i + Z.of_nat t * step) s')) ->
  for_from cnt step i f s = for_from cnt step i g s.
Proof.
  revert P i s. induction cnt as [|c IH]; intros P i s H0 Hstep; [reflexivity|].
  simpl. destruct (Hstep 0%nat s) as [E HP]; [lia | exact H0 |].
  rewrite Z.mul_0_l, Z.add_0_r in E, HP. rewrite <- E.
  apply (IH (fun t => P (Datatypes.S t))); [exact HP|].
  intros t s' Ht HPt.
  replace (i + step + Z.of_nat t * step)
    with (i + Z.of_nat (Datatypes.S t) * step) by lia.
  apply Hstep; [lia | exact HPt].
Qed.

Lemma for_up_ext_inv (P : Z -> S -> Prop) (lo hi : Z) (f g : Z -> S -> S)
    (s : S) :
  P lo s ->
  (forall j s', lo <= j <= hi -> P j s' ->
     f j s' = g j s' /\ P (j + 1) (f j s')) ->
  for_up lo hi f s = for_up lo hi g s.
Proof.
  intros H0 Hstep. unfold for_up.
  apply (for_from_ext_inv (fun t s' => P (lo + Z.of_nat t) s')).
  - now rewrite Z.add_0_r.
  - intros t s' Ht HP. rewrite Z.mul_1_r.
    replace (lo + Z.of_nat (Datatypes.S t)) with (lo + Z.of_nat t + 1) by lia.
    apply Hstep; [lia | exact HP].
Qed.

End Ext_inv.

Section X_reads.
Variable fround : float -> float.
Variables (n k : Z) (AlphaRe AlphaIm BetaRe BetaIm : float).
Variables (ar ai : fpArray) (ca : Z -> Z).
Variables (xr1 xi1 xr2 xi2 : fpArray) (xbase ybase incx incy : Z).
Hypothesis Hk : 0 <= k.
Hypothesis Hx : strided_eq n incx xbase xr1 xi1 xr2 xi2.

Local Abbreviation posx := (position n incx xbase).

Lemma x_at (t : Z) :
  0 <= t < n ->
  get xr1 (posx t) = get xr2 (posx t) /\ get xi1 (posx t) = get xi2 (posx t).
Proof. intros Ht. apply Hx. exists t. split; [exact Ht | reflexivity]. Qed.

Lemma inner_step_same_x (t1r t1i : float) (aidx : Z) (s : inner_st) (t : Z) :
  i_ix s = posx t -> 0 <= t < n ->
  inner_step fround ar ai xr1 xi1 t1r t1i aidx s
  = inner_step fround ar ai xr2 xi2 t1r t1i aidx s.
Proof.
  intros Hix Ht. destruct (x_at t Ht) as [Hr Hi].
  unfold inner_step. now rewrite Hix, Hr, Hi.
Qed.

Lemma upper_col_same_x (j : Z) (o : outer_st) :
  1 <= j <= n ->
  o_jx o = posx (j - 1) ->
  o_kx o = start_index n incx + Z.max 0 (j - 1 - k) * incx ->
  let o1 := upper_col fround k AlphaRe AlphaIm ar ai ca xr1 xi1 xbase ybase
              incx incy j o in
  o1 = upper_col fround k AlphaRe AlphaIm ar ai ca xr2 xi2 xbase ybase
         incx incy j o /\
  o_jx o1 = posx j /\
  o_kx o1 = start_index n incx + Z.max 0 (j - k) * incx.
Proof.
  intros Hj Hjx Hkx. cbv zeta. split.
  - unfold upper_col. cbv zeta.
    destruct (x_at (j - 1)) as [Hr Hi]; [lia|].
    rewrite Hjx, Hr, Hi.
    match goal with
    | |- ?lhs = ?rhs =>
      match lhs with
      | context [for_up ?lo ?hi ?f1 ?s0] =>
        match rhs with
        | context [for_up lo hi ?f2 s0] =>
          rewrite (for_up_ext_inv (fun i s => i_ix s = posx (i - 1))
                     lo hi f1 f2 s0)
        end
      end
    end; [reflexivity | |].
    + cbn [i_ix]. rewrite Hkx. unfold position.
      replace (Z.max 1 (j - k) - 1) with (Z.max 0 (j - 1 - k)) by lia. ring.
    + intros i s' Hi' Hix. cbv beta.
      rewrite (inner_step_same_x _ _ _ s' (i - 1) Hix) by lia.
      split; [reflexivity|].
      cbn [i_ix]. unfold inner_step. cbn [i_ix]. rewrite Hix.
      unfold position. ring.
  - unfold upper_col. cbv zeta.
    destruct (Z.gtb_spec j k); cbn [o_jx o_kx]; rewrite Hjx, Hkx;
      unfold position; split; try ring.
    + rewrite (Z.max_r 0 (j - 1 - k)), (Z.max_r 0 (j - k)) by lia. ring.
    + rewrite (Z.max_l 0 (j - 1 - k)), (Z.max_l 0 (j - k)) by lia. ring.
Qed.

Lemma lower_col_same_x (j : Z) (o : outer_st) :
  1 <= j <= n ->
  o_jx o = posx (j - 1) ->
  let o1 := lower_col fround n k AlphaRe AlphaIm ar ai ca xr1 xi1 incx incy j o in
  o1 = lower_col fround n k AlphaRe AlphaIm ar ai ca xr2 xi2 incx incy j o /\
  o_jx o1 = posx j.
Proof.
  intros Hj Hjx. cbv zeta. split.
  - unfold lower_col. cbv zeta.
    destruct (x_at (j - 1)) as [Hr Hi]; [lia|].
    rewrite Hjx, Hr, Hi.
    match goal with
    | |- ?lhs = ?rhs =>
      match lhs with
      | context [for_up ?lo ?hi ?f1 ?s0] =>
        match rhs with
        | context [for_up lo hi ?f2 s0] =>
          rewrite (for_up_ext_inv (fun i s => i_ix s = posx (i - 2))
                     lo hi f1 f2 s0)
        end
      end
    end; [reflexivity | |].
    + cbn [i_ix]. unfold position. ring.
    + intros i s' Hi' Hix. cbv beta.
      match goal with |- context [inner_step _ _ _ _ _ ?a ?b ?c ?d] =>
        rewrite (inner_step_same_x a b c d (i - 1))
      end.
      * split; [reflexivity|]. unfold inner_step. cbn [i_ix]. rewrite Hix.
        unfold position. ring.
      * cbn [i_ix]. rewrite Hix. unfold position. ring.
      * lia.
  - unfold lower_col. cbv zeta. cbn [o_jx]. rewrite Hjx.
    unfold position. ring.
Qed.

Lemma chbmv_run_same_x (ul : string) (yr yi : fpArray) :
  chbmv_run fround n k AlphaRe AlphaIm BetaRe BetaIm ar ai ca
    xr1 xi1 xbase ybase incx incy ul yr yi
  = chbmv_run fround n k AlphaRe AlphaIm BetaRe BetaIm ar ai ca
      xr2 xi2 xbase ybase incx incy ul yr yi.
Proof.
  unfold chbmv_run. cbv zeta.
  destruct (_ || _); [reflexivity|].
  destruct (beta_pass _ _ _ _ _ _ _ _) as [yr1 yi1].
  destruct (alphaIsZero _ _); [reflexivity|].
  fold (start_index n incx). fold (start_index n incy).
  destruct (String.eqb ul "u").
  - match goal with
    | |- context [for_up ?lo ?hi ?f1 ?s0] =>
      rewrite (for_up_ext_inv
        (fun j o => o_jx o = posx (j - 1) /\
           o_kx o = start_index n incx + Z.max 0 (j - 1 - k) * incx)
        lo hi f1
        (upper_col fround k AlphaRe AlphaIm ar ai ca xr2 xi2 xbase ybase
           incx incy) s0)
    end; [reflexivity | |].
    + cbn [o_jx o_kx]. unfold position. split; [ring|].
      rewrite Z.max_l by lia. ring.
    + intros j o Hj [Hjx Hkx].
      destruct (upper_col_same_x j o Hj Hjx Hkx) as (E & H1 & H2).
      split; [exact E|]. split.
      * rewrite H1. f_equal. lia.
      * rewrite H2. do 2 f_equal. lia.
  - match goal with
    | |- context [for_up ?lo ?hi ?f1 ?s0] =>
      rewrite (for_up_ext_inv (fun j o => o_jx o = posx (j - 1))
        lo hi f1
        (lower_col fround n k AlphaRe AlphaIm ar ai ca xr2 xi2 incx incy) s0)
    end; [reflexivity | |].
    + cbn [o_jx]. unfold position. ring.
    + intros j o Hj Hjx.
      destruct (lower_col_same_x j o Hj Hjx) as (E & H1).
      split; [exact E|]. rewrite H1. f_equal. lia.
Qed.

End X_reads.

(** [chbmv] reads [x] at its [n] strided positions only: two vectors of
    the same base that agree there, in both buffers, give the same
    outcome. *)
Theorem chbmv_reads_x_strided (fround : float -> float) (_uplo : string)
    (n k : Z) (alpha : Complex) (a : Matrix) (lda : Z) (x1 x2 : FortranArr)
    (xi1 xi2 : fpArray) (incx : Z) (beta : Complex) (y : FortranArr)
    (incy : Z) :
  base x1 = base x2 -> vi x1 = Some xi1 -> vi x2 = Some xi2 ->
  strided_eq n incx (base x1) (vr x1) xi1 (vr x2) xi2 ->
  chbmv fround _uplo n k alpha a lda x1 incx beta y incy
  = chbmv fround _uplo n k alpha a lda x2 incx beta y incy.
Proof.
  intros Hb H1 H2 Hx. unfold chbmv. rewrite H1, H2, <- Hb.
  destruct (mi a) as [ai|]; [|reflexivity].
  destruct (vi y) as [yi|]; [|reflexivity]. cbv zeta.
  destruct (Z.eqb_spec (chbmv_info (lower0x20 _uplo) n k lda incx incy) 0)
    as [Hinfo | _]; [|reflexivity].
  cbn [negb]. apply chbmv_info_zero_k in Hinfo.
  now rewrite (chbmv_run_same_x fround n k (re alpha) (im alpha) (re beta)
    (im beta) (mr a) ai (colOfEx a) (vr x1) xi1 (vr x2) xi2 (base x1)
    (base y) incx incy Hinfo Hx (lower0x20 _uplo) (vr y) yi).
Qed.

Lemma exX_exXlong_strided :
  strided_eq 1 1 (base exX) (vr exX) [0%float] (vr exXlong) [0; 88]%float.
Proof.
  intros p [t [Ht ->]]. assert (Hc : t = 0) by lia. subst t.
  split; reflexivity.
Defined.

Lemma chbmv_reads_x_strided_witness :
  strided_eq 1 1 (base exX) (vr exX) [0%float] (vr exXlong) [0; 88]%float /\
  chbmv store64 "l" 1 0 (mkComplex 1 0) exH 1 exX 1 (mkComplex 2 0) exY 1
  = chbmv store64 "l" 1 0 (mkComplex 1 0) exH 1 exXlong 1 (mkComplex 2 0)
      exY 1.
Proof.
  split; [exact exX_exXlong_strided|].
  apply (chbmv_reads_x_strided store64 "l" 1 0 (mkComplex 1 0) exH 1 exX
    exXlong [0%float] [0; 88]%float 1 (mkComplex 2 0) exY 1);
    [reflexivity | reflexivity | reflexivity | exact exX_exXlong_strided].
Defined.
